(** * The media proxy of the ExerciseDB API (class [App], [initializeMediaProxy])

    A shallow embedding of the two route handlers that [initializeMediaProxy]
    registers on [/api/v1/media/:filename]:

    - the [OPTIONS] handler (CORS preflight), and
    - the [GET] handler, which validates the file name, sets the response
      headers and then serves the GIF from the local [media] folder or,
      when the local read fails, from the CDN.

    The handlers are written in a small state-and-exception monad: the state
    holds the header store [c.res.headers] of the request context and the
    chronological list of the effects the handler performed (awaited reads
    and fetches, console output); an abrupt completion is a thrown JS
    error, so that [try]/[catch] is a combinator and "nothing escapes the
    handler" is a statement about the result of running it.

    The same file of the application registers a CORS middleware in front
    of every route and builds the application at start-up; both are
    modelled further down, with the error handler. *)

From Stdlib Require Import ZArith.
From stdpp Require Import base option strings list gmap fin_maps pretty.

Local Open Scope Z_scope.

(* ===================================================================== *)
(** ** JavaScript strings: [includes], [endsWith]                         *)
(* ===================================================================== *)

(** A string is the sequence of its code units, and the searches compare
    unit by unit. *)
Module JsString.

(** [s.startsWith(p)]: structural recursion on the searched prefix. *)
Fixpoint startsWith (s p : string) : bool :=
  match p, s with
  | EmptyString, _ => true
  | String _ _, EmptyString => false
  | String b p', String a s' =>
      if decide (a = b) then startsWith s' p' else false
  end.

(** [s.includes(sub)]: [sub] occurs at some position of [s]. *)
Fixpoint includes (s sub : string) : bool :=
  startsWith s sub ||
  match s with
  | EmptyString => false
  | String _ s' => includes s' sub
  end.

(** [s.endsWith(suf)]: when [suf] is not longer than [s], the last
    [suf.length] characters of [s] are compared with [suf]. *)
Definition endsWith (s suf : string) : bool :=
  let n := String.length s in
  let k := String.length suf in
  if decide (k ≤ n)%nat
  then bool_decide (String.substring (n - k) k s = suf)
  else false.

(** ASCII lower-casing of one character and of a string, as the
    [Headers] class applies it to header names. *)
Definition lower_ascii (a : Ascii.ascii) : Ascii.ascii :=
  let n := Ascii.nat_of_ascii a in
  if decide (65 ≤ n ∧ n ≤ 90)%nat then Ascii.ascii_of_nat (n + 32) else a.

Fixpoint toLowerCase (s : string) : string :=
  match s with
  | EmptyString => EmptyString
  | String a s' => String (lower_ascii a) (toLowerCase s')
  end.

(** The declarative readings of the two searches. *)
Definition occurs_in (sub s : string) : Prop :=
  ∃ pre post, s = pre +:+ sub +:+ post.

Definition is_suffix_of (suf s : string) : Prop :=
  ∃ pre, s = pre +:+ suf.

End JsString.

(* ===================================================================== *)
(** ** Values exchanged with the runtime and its libraries                *)
(* ===================================================================== *)

(** A [Buffer] / [ArrayBuffer]: a sequence of bytes. *)
Abbreviation bytes := (list Byte.byte).

(** A thrown or rejected JS error, with the two properties the handler
    reads: [code] (absent on errors that carry none) and [message]. *)
Record JsError := { err_code : option string; err_message : string }.

(** The state in which an awaited promise settles. *)
Inductive Settled (A : Type) : Type :=
| Fulfilled (a : A)
| Rejected (e : JsError).
Arguments Fulfilled {A} a.
Arguments Rejected {A} e.

(** The request configuration handed to [axios.get] and the part of its
    response the handler reads. *)
Record AxiosConfig := {
  responseType : string;
  timeout : Z;
  request_headers : list (string * string)
}.

Record AxiosResponse := { ax_status : Z; ax_data : bytes }.

(** What surrounds one request: the working directory of the process, and
    how the awaited [fs.readFile] and [axios.get] calls settle. Both are
    arbitrary: a read may reject with any error, a fetch may fulfil with
    any status or reject (transport failure, a status [axios] refuses, or
    the [timeout] of the configuration running out). *)
Record World := {
  process_cwd : string;
  fs_readFile : string → Settled bytes;
  axios_get : string → AxiosConfig → Settled AxiosResponse
}.

(** The effects a handler performs, in the order it performs them. An
    awaited call is one entry: the handler continues only once it has
    settled. *)
Inductive Effect :=
| ReadFile (path : string)
| AxiosGet (url : string) (cfg : AxiosConfig)
| ConsoleError (label message : string).

(** The body and the response a handler returns. *)
Record ApiMessage := { success : bool; message : string }.

Inductive Body :=
| BodyNull
| BodyBytes (data : bytes)
| BodyJson (obj : ApiMessage).

Record Response := {
  status : Z;
  body : Body;
  headers : gmap string string
}.

(** The request context [c], as far as the handlers use it: the header
    store [c.res.headers], and the effects performed so far. *)
Record Ctx := {
  res_headers : gmap string string;
  effects : list Effect
}.

(* ===================================================================== *)
(** ** The handler monad: context state and thrown errors                 *)
(* ===================================================================== *)

Inductive Completion (A : Type) : Type :=
| Return (a : A)
| Throw (e : JsError).
Arguments Return {A} a.
Arguments Throw {A} e.

Definition Handler (A : Type) : Type := Ctx → Completion A * Ctx.

Definition ret {A} (a : A) : Handler A := λ c, (Return a, c).

Definition bind {A B} (k : A → Handler B) (m : Handler A) : Handler B :=
  λ c, match m c with
       | (Return a, c') => k a c'
       | (Throw e, c') => (Throw e, c')
       end.

#[export] Instance handler_ret : MRet Handler := @ret.
#[export] Instance handler_bind : MBind Handler := @bind.

(** [try { m } catch (e) { h e }] *)
Definition try_catch {A} (m : Handler A) (h : JsError → Handler A) : Handler A :=
  λ c, match m c with
       | (Return a, c') => (Return a, c')
       | (Throw e, c') => h e c'
       end.

Definition perform (ev : Effect) : Handler unit :=
  λ c, (Return tt, {| res_headers := res_headers c; effects := effects c ++ [ev] |}).

(** [await p]: the awaited value on fulfilment, a throw on rejection. *)
Definition await {A} (p : Settled A) : Handler A :=
  λ c, match p with
       | Fulfilled a => (Return a, c)
       | Rejected e => (Throw e, c)
       end.

(** [await fs.readFile(path)] *)
Definition await_readFile (w : World) (path : string) : Handler bytes :=
  perform (ReadFile path) ;; await (fs_readFile w path).

(** [await axios.get(url, cfg)] *)
Definition await_axios_get (w : World) (url : string) (cfg : AxiosConfig)
  : Handler AxiosResponse :=
  perform (AxiosGet url cfg) ;; await (axios_get w url cfg).

(** [console.error(label, message)] *)
Definition console_error (label message : string) : Handler unit :=
  perform (ConsoleError label message).

(* ===================================================================== *)
(** ** The [Headers] store and the responders of the context              *)
(* ===================================================================== *)

(** [Headers]: names are case-insensitive, kept in lower case. *)
Definition headers_set (name value : string) (h : gmap string string)
  : gmap string string :=
  <[JsString.toLowerCase name := value]> h.

Definition headers_get (name : string) (h : gmap string string) : option string :=
  h !! JsString.toLowerCase name.

(** [c.res.headers.set(name, value)] *)
Definition res_headers_set (name value : string) : Handler unit :=
  λ c, (Return tt,
        {| res_headers := headers_set name value (res_headers c);
           effects := effects c |}).

(** [new Response(body, {status, headers})]. The status is first converted
    to an unsigned 16-bit integer; the constructor then throws a
    [RangeError] when it lies outside 200..599, and a [TypeError] when a
    body is given with a status that allows none. *)
Definition dquote : string := String (Ascii.ascii_of_nat 34) EmptyString.

Definition status_range_error : JsError :=
  {| err_code := None;
     err_message :=
       "init[" +:+ dquote +:+ "status" +:+ dquote
       +:+ "] must be in the range of 200 to 599, inclusive." |}.

Definition null_body_error (st : Z) : JsError :=
  {| err_code := None;
     err_message :=
       "Response constructor: Invalid response status code " +:+ pretty st |}.

Definition null_body_statuses : list Z := [101; 204; 205; 304].

Definition has_body (b : Body) : bool :=
  match b with BodyNull => false | _ => true end.

Definition new_Response (b : Body) (st : Z) (h : gmap string string)
  : Completion Response :=
  let st16 := Z.modulo st 65536 in
  if negb ((200 <=? st16) && (st16 <=? 599)) then Throw status_range_error
  else if has_body b && existsb (Z.eqb st16) null_body_statuses
  then Throw (null_body_error st16)
  else Return {| status := st16; body := b; headers := h |}.

(** [c.body(data, status)]: a response with the headers of [c.res]; the
    status is 200 when none is given. *)
Definition c_body (data : Body) (st : option Z) : Handler Response :=
  λ c, (new_Response data (default 200 st) (res_headers c), c).

(** The content type [c.json] gives its responses (releases of the
    framework differ only in a charset parameter added to it). *)
Definition json_content_type : string := "application/json".

(** [c.json(obj, status)]: the object rendered as JSON, with the headers
    of [c.res] and the content type of JSON, which replaces a content type
    set before. *)
Definition c_json (obj : ApiMessage) (st : Z) : Handler Response :=
  λ c, (new_Response (BodyJson obj) st
          (headers_set "Content-Type" json_content_type (res_headers c)), c).

(** [s.split(sep)] for a one-character separator. *)
Fixpoint split_on (sep : Ascii.ascii) (s : string) : list string :=
  match s with
  | EmptyString => [EmptyString]
  | String a s' =>
      if decide (a = sep) then EmptyString :: split_on sep s'
      else match split_on sep s' with
           | seg :: rest => String a seg :: rest
           | [] => [String a EmptyString]
           end
  end.

Definition slash : Ascii.ascii := Ascii.ascii_of_nat 47.

(** One segment of the normalisation that [path.resolve] applies: empty
    segments and [.] are dropped, [..] removes the segment before it (and
    is kept only in a relative path that has nothing left to remove),
    every other segment is appended. *)
Definition normalize_segment (allowAboveRoot : bool) (res : list string)
    (seg : string) : list string :=
  if bool_decide (seg = "") || bool_decide (seg = ".") then res
  else if bool_decide (seg = "..") then
    match last res with
    | Some top =>
        if bool_decide (top = "..")
        then (if allowAboveRoot then res ++ [".."] else res)
        else removelast res
    | None => if allowAboveRoot then [".."] else []
    end
  else res ++ [seg].

Definition normalize_path (allowAboveRoot : bool) (path : string) : list string :=
  foldl (normalize_segment allowAboveRoot) [] (split_on slash path).

(** The right-to-left pass of [path.resolve]: arguments are prepended,
    empty ones skipped, until one that starts with the separator. *)
Fixpoint resolve_from_right (paths : list string) (resolvedPath : string)
  : string * bool :=
  match paths with
  | [] => (resolvedPath, false)
  | path :: rest =>
      if bool_decide (path = "") then resolve_from_right rest resolvedPath
      else
        let resolvedPath' := path +:+ "/" +:+ resolvedPath in
        if JsString.startsWith path "/" then (resolvedPath', true)
        else resolve_from_right rest resolvedPath'
  end.

(** [path.resolve(...args)] of POSIX, in a process whose working directory
    is [cwd] (used when no argument is absolute). *)
Definition path_resolve (cwd : string) (args : list string) : string :=
  let '(resolvedPath, resolvedAbsolute) :=
    resolve_from_right (rev args ++ [cwd]) "" in
  let normalized :=
    String.concat "/" (normalize_path (negb resolvedAbsolute) resolvedPath) in
  if resolvedAbsolute then "/" +:+ normalized
  else if bool_decide (normalized = "") then "." else normalized.

(** Truthiness of [c.req.param('filename')], a string or [undefined]. *)
Definition truthy (v : option string) : bool :=
  match v with
  | None => false
  | Some s => negb (bool_decide (s = ""))
  end.

(* ===================================================================== *)
(** ** [initializeMediaProxy]: the two route handlers                     *)
(* ===================================================================== *)

Definition invalid_filename_body : ApiMessage :=
  {| success := false; message := "Invalid filename" |}.

Definition media_not_found_body : ApiMessage :=
  {| success := false; message := "Media not found" |}.

Definition cdn_request_config : AxiosConfig :=
  {| responseType := "arraybuffer";
     timeout := 15000;
     request_headers :=
       [("User-Agent",
         "Mozilla/5.0 (Windows NT 10.0; Win64; x64) AppleWebKit/537.36")] |}.

(** [this.app.options('/api/v1/media/:filename', (c) => ...)] *)
Definition options_media (param : option string) : Handler Response :=
  res_headers_set "Access-Control-Allow-Origin" "*" ;;
  res_headers_set "Access-Control-Allow-Methods" "GET, OPTIONS" ;;
  res_headers_set "Access-Control-Allow-Headers" "*" ;;
  c_body BodyNull (Some 204).

(** The test that guards the handler. [filename] is only read as a string
    once it is known to be truthy ([||] evaluates left to right and
    stops at the first operand that holds). *)
Definition rejects (param : option string) : bool :=
  let filename := default "" param in
  negb (truthy param)
  || JsString.includes filename ".."
  || JsString.includes filename "/"
  || negb (JsString.endsWith filename ".gif").

Definition mediaPath (w : World) (filename : string) : string :=
  path_resolve (process_cwd w) [process_cwd w; "media"; filename].

Definition cdnUrl (filename : string) : string :=
  "https://v1.cdn.exercisedb.dev/media/" +:+ filename.

(** The five [c.res.headers.set] calls that follow the guard. *)
Definition set_media_headers : Handler unit :=
  res_headers_set "Access-Control-Allow-Origin" "*" ;;
  res_headers_set "Access-Control-Allow-Methods" "GET, OPTIONS" ;;
  res_headers_set "Access-Control-Allow-Headers" "*" ;;
  res_headers_set "Content-Type" "image/gif" ;;
  res_headers_set "Cache-Control" "public, max-age=31536000, immutable".

(** The nested [try]/[catch] that ends the handler: the local [media]
    folder first, then the CDN. *)
Definition serve_local_then_cdn (w : World) (filename : string)
  : Handler Response :=
  try_catch
    (fileData ← await_readFile w (mediaPath w filename);
     c_body (BodyBytes fileData) None)
    (λ localError,
       (if negb (bool_decide (err_code localError = Some "ENOENT"))
        then console_error "Error reading local file:" (err_message localError)
        else mret tt) ;;
       try_catch
         (response ← await_axios_get w (cdnUrl filename) cdn_request_config;
          if negb (bool_decide (ax_status response = 200))
          then c_json media_not_found_body 404
          else c_body (BodyBytes (ax_data response)) None)
         (λ cdnError,
            console_error "Error fetching from CDN:" (err_message cdnError) ;;
            c_json media_not_found_body 404)).

(** [this.app.get('/api/v1/media/:filename', async (c) => ...)] *)
Definition get_media (w : World) (param : option string) : Handler Response :=
  let filename := default "" param in
  if rejects param then
    c_json invalid_filename_body 400
  else
    set_media_headers ;;
    serve_local_then_cdn w filename.

(* ===================================================================== *)
(** ** Vocabulary of the properties                                       *)
(* ===================================================================== *)

(** The header store after the five calls of [set_media_headers]. *)
Definition media_headers (h : gmap string string) : gmap string string :=
  headers_set "Cache-Control" "public, max-age=31536000, immutable"
    (headers_set "Content-Type" "image/gif"
       (headers_set "Access-Control-Allow-Headers" "*"
          (headers_set "Access-Control-Allow-Methods" "GET, OPTIONS"
             (headers_set "Access-Control-Allow-Origin" "*" h)))).

Definition with_headers (h : gmap string string) (c : Ctx) : Ctx :=
  {| res_headers := h; effects := effects c |}.

(** The three responses the [GET] handler builds, over the header store
    [h] of the context at the time of the [return]. *)
Definition found_response (data : bytes) (h : gmap string string) : Response :=
  {| status := 200; body := BodyBytes data; headers := h |}.

Definition not_found_response (h : gmap string string) : Response :=
  {| status := 404;
     body := BodyJson media_not_found_body;
     headers := headers_set "Content-Type" json_content_type h |}.

Definition invalid_response (h : gmap string string) : Response :=
  {| status := 400;
     body := BodyJson invalid_filename_body;
     headers := headers_set "Content-Type" json_content_type h |}.

(** What the outer [catch] writes to the console for a local error. *)
Definition local_error_log (localError : JsError) : list Effect :=
  if negb (bool_decide (err_code localError = Some "ENOENT"))
  then [ConsoleError "Error reading local file:" (err_message localError)]
  else [].

Definition performs (evs : list Effect) (c : Ctx) : Ctx :=
  {| res_headers := res_headers c; effects := effects c ++ evs |}.

(** A header store that carries the three CORS headers. *)
Definition carries_cors (h : gmap string string) : Prop :=
  headers_get "Access-Control-Allow-Origin" h = Some "*"
  ∧ headers_get "Access-Control-Allow-Methods" h = Some "GET, OPTIONS"
  ∧ headers_get "Access-Control-Allow-Headers" h = Some "*".

(** The rejection condition in the words of the specification. *)
Definition spec_invalid_filename (param : option string) : Prop :=
  match param with
  | None => True
  | Some raw =>
      raw = ""
      ∨ JsString.occurs_in ".." raw
      ∨ JsString.occurs_in "/" raw
      ∨ ¬ JsString.is_suffix_of ".gif" raw
  end.

(** Counting the reads of the local store and the fetches from the CDN
    among performed effects. *)
Definition is_local_read (ev : Effect) : bool :=
  match ev with ReadFile _ => true | _ => false end.

Definition is_remote_fetch (ev : Effect) : bool :=
  match ev with AxiosGet _ _ => true | _ => false end.

Definition local_reads (evs : list Effect) : nat :=
  length (filter (λ ev, is_local_read ev = true) evs).

Definition remote_fetches (evs : list Effect) : nat :=
  length (filter (λ ev, is_remote_fetch ev = true) evs).

(** A fetch that did not yield a 200 response: fulfilled with another
    status, or rejected (transport failure, refused status, timeout). *)
Definition remote_failed (o : Settled AxiosResponse) : Prop :=
  match o with
  | Fulfilled r => ax_status r ≠ 200
  | Rejected _ => True
  end.

(** The three outcomes of a request, and the responses that carry them. *)
Inductive MediaOutcome := Found | NotFound | Invalid.

Definition is_outcome (o : MediaOutcome) (r : Response) : Prop :=
  match o with
  | Found => status r = 200 ∧ ∃ data, body r = BodyBytes data
  | NotFound => status r = 404 ∧ body r = BodyJson media_not_found_body
  | Invalid => status r = 400 ∧ body r = BodyJson invalid_filename_body
  end.

(** Sample surroundings for the examples: one GIF in the local folder,
    one more on the CDN, every other fetch timing out. *)
Definition enoent : JsError :=
  {| err_code := Some "ENOENT"; err_message := "no such file or directory" |}.

Definition eacces : JsError :=
  {| err_code := Some "EACCES"; err_message := "permission denied" |}.

Definition etimedout : JsError :=
  {| err_code := Some "ECONNABORTED";
     err_message := "timeout of 15000ms exceeded" |}.

Definition sample_world : World :=
  {| process_cwd := "/srv/app";
     fs_readFile := λ path,
       if bool_decide (path = "/srv/app/media/0001.gif")
       then Fulfilled [Byte.x47; Byte.x49; Byte.x46]
       else if bool_decide (path = "/srv/app/media/locked.gif")
       then Rejected eacces
       else Rejected enoent;
     axios_get := λ url cfg,
       if bool_decide (url = "https://v1.cdn.exercisedb.dev/media/0002.gif")
       then Fulfilled {| ax_status := 200; ax_data := [Byte.x47; Byte.x38] |}
       else if bool_decide (url = "https://v1.cdn.exercisedb.dev/media/locked.gif")
       then Fulfilled {| ax_status := 200; ax_data := [Byte.x39] |}
       else if bool_decide (url = "https://v1.cdn.exercisedb.dev/media/partial.gif")
       then Fulfilled {| ax_status := 206; ax_data := [Byte.x47] |}
       else Rejected etimedout |}.

Definition fresh_ctx : Ctx := {| res_headers := ∅; effects := [] |}.

(* ===================================================================== *)
(** ** The rest of class [App]: start-up and the error handler            *)
(* ===================================================================== *)

(** The start-up code only calls methods of the application object and of
    the routes it is given. A run of it is the list of these calls in the
    order they are made; a call of [route.initRoutes()] is the one that
    may throw. *)
Module AppShell.

Inductive Middleware :=
| Cors (origin : string) (allowMethods : list string)
| Logger
| PrettyJSON
| ResponseTime.

Inductive RouteHandler := MediaOptions | MediaGet | Health | DocsUI.

Inductive Controller :=
| HomePage
| RouteController (name : string).

(** An element of [routes: Routes[]]: the controller it carries, and
    whether its [initRoutes()] returns ([None]) or throws. *)
Record Route := {
  route_name : string;
  initRoutes : option JsError
}.

Inductive Call :=
| Use (m : Middleware)
| OnOptions (path : string) (h : RouteHandler)
| OnGet (path : string) (h : RouteHandler)
| Mount (base : string) (controller : Controller)
| Doc31 (path : string)
| OnNotFound
| OnError
| InitRoutes (name : string)
| LogInitFailure (label : string) (cause : JsError).

Definition Init (A : Type) : Type := list Call → Completion A * list Call.

Definition init_ret {A} (a : A) : Init A := λ calls, (Return a, calls).

Definition init_bind {A B} (k : A → Init B) (m : Init A) : Init B :=
  λ calls, match m calls with
           | (Return a, calls') => k a calls'
           | (Throw e, calls') => (Throw e, calls')
           end.

#[export] Instance init_mret : MRet Init := @init_ret.
#[export] Instance init_mbind : MBind Init := @init_bind.

Definition init_try_catch {A} (m : Init A) (h : JsError → Init A) : Init A :=
  λ calls, match m calls with
           | (Return a, calls') => (Return a, calls')
           | (Throw e, calls') => h e calls'
           end.

Definition call (x : Call) : Init unit := λ calls, (Return tt, calls ++ [x]).

Definition throw {A} (e : JsError) : Init A := λ calls, (Throw e, calls).

(** [route.initRoutes()] *)
Definition call_initRoutes (route : Route) : Init unit :=
  call (InitRoutes (route_name route)) ;;
  match initRoutes route with
  | None => mret tt
  | Some e => throw e
  end.

(** [routes.forEach(f)] *)
Fixpoint forEach {A} (l : list A) (f : A → Init unit) : Init unit :=
  match l with
  | [] => mret tt
  | x :: l' => f x ;; forEach l' f
  end.

Definition initializeGlobalMiddleware : Init unit :=
  call (Use (Cors "*" ["GET"; "OPTIONS"])) ;;
  call (Use Logger) ;;
  call (Use PrettyJSON) ;;
  call (Use ResponseTime).

Definition initializeMediaProxy : Init unit :=
  call (OnOptions "/api/v1/media/:filename" MediaOptions) ;;
  call (OnGet "/api/v1/media/:filename" MediaGet).

Definition initializeHealthRoute : Init unit :=
  call (OnGet "/health" Health).

(** The callback of [routes.forEach]: initialise the route, then mount
    its controller under [/api/v1]. *)
Definition mount_route (route : Route) : Init unit :=
  call_initRoutes route ;;
  call (Mount "/api/v1" (RouteController (route_name route))).

Definition initializeRoutes (routes : list Route) : Init unit :=
  initializeMediaProxy ;;
  forEach routes mount_route ;;
  call (Mount "/" HomePage) ;;
  initializeHealthRoute.

Definition initializeSwaggerUI : Init unit :=
  call (Doc31 "/swagger") ;;
  call (OnGet "/docs" DocsUI).

Definition initializeRouteFallback : Init unit := call OnNotFound.

Definition initializeErrorHandler : Init unit := call OnError.

Definition init_failure : JsError :=
  {| err_code := None; err_message := "Failed to initialize application" |}.

Definition initializeApp (routes : list Route) : Init unit :=
  init_try_catch
    (initializeGlobalMiddleware ;;
     initializeRoutes routes ;;
     initializeSwaggerUI ;;
     initializeRouteFallback ;;
     initializeErrorHandler)
    (λ error,
       call (LogInitFailure "Failed to initialize application:" error) ;;
       throw init_failure).

(** The calls a route adds when its [initRoutes()] returns. *)
Definition route_calls (route : Route) : list Call :=
  [InitRoutes (route_name route);
   Mount "/api/v1" (RouteController (route_name route))].

Definition is_use (x : Call) : bool :=
  match x with Use _ => true | _ => false end.

(** An error as the handler of [onError] receives it: its [message], and
    its [status], an integer that only an HTTP exception carries. The
    status is any integer here: it is [new Response], reached through
    [c.json], that reduces it to 16 bits and refuses what is no status of
    a response with a body. *)
Record HttpError := { he_message : string; he_status : option Z }.

(** [error.status || 500]: [undefined] and [0] are falsy. *)
Definition status_or_500 (st : option Z) : Z :=
  match st with
  | Some s => if bool_decide (s = 0) then 500 else s
  | None => 500
  end.

(** The context of the error handler: the request context, and what
    [console.log] has printed. *)
Record ErrCtx := { ctx : Ctx; logged : list HttpError }.

(** [this.app.onError((err, c) => ...)] *)
Definition onError (err : HttpError) (a : ErrCtx) : Completion Response * ErrCtx :=
  let printed := logged a ++ [err] in
  let '(r, c') :=
    c_json {| success := false; message := he_message err |}
      (status_or_500 (he_status err)) (ctx a) in
  (r, {| ctx := c'; logged := printed |}).

(** The four controllers the server passes, and a start-up in which the
    second one fails. *)
Definition server_routes : list Route :=
  [ {| route_name := "ExerciseController"; initRoutes := None |};
    {| route_name := "MuscleController"; initRoutes := None |};
    {| route_name := "EquipmentController"; initRoutes := None |};
    {| route_name := "BodyPartController"; initRoutes := None |} ].

Definition duplicate_route : JsError :=
  {| err_code := None; err_message := "duplicate route" |}.

Definition failing_route : Route :=
  {| route_name := "MuscleController"; initRoutes := Some duplicate_route |}.

(** The calls of [initializeGlobalMiddleware] and [initializeMediaProxy],
    with which every start-up begins. *)
Definition prologue : list Call :=
  [Use (Cors "*" ["GET"; "OPTIONS"]); Use Logger; Use PrettyJSON;
   Use ResponseTime;
   OnOptions "/api/v1/media/:filename" MediaOptions;
   OnGet "/api/v1/media/:filename" MediaGet].

(** The calls that follow the routes in a start-up that succeeds. *)
Definition epilogue : list Call :=
  [Mount "/" HomePage; OnGet "/health" Health;
   Doc31 "/swagger"; OnGet "/docs" DocsUI;
   OnNotFound; OnError].

End AppShell.

(* ===================================================================== *)
(** ** The global CORS middleware                                         *)
(* ===================================================================== *)

(** [initializeGlobalMiddleware] registers
    [cors({origin: '*', allowMethods: ['GET', 'OPTIONS']})] before any
    route, so that it runs first on every request, preflights to the media
    route included. What follows is that middleware as these options make
    it behave: the branches the options switch off (an origin other than
    [*], credentials, exposed headers, a maximal age, a fixed list of
    allowed headers) are left out. *)
Record Request := {
  req_method : string;
  req_headers : gmap string string
}.

(** [c.req.header(name)] *)
Definition req_header (name : string) (req : Request) : option string :=
  headers_get name (req_headers req).

(** The code units that the class [\s] of a regular expression matches,
    among those a header value can hold. *)
Definition is_js_space (a : Ascii.ascii) : bool :=
  let n := Ascii.nat_of_ascii a in
  bool_decide (n ∈ [9; 10; 11; 12; 13; 32; 160]%nat).

Fixpoint trim_start (s : string) : string :=
  match s with
  | EmptyString => EmptyString
  | String a s' => if is_js_space a then trim_start s' else s
  end.

Definition trim_end (s : string) : string :=
  String.rev (trim_start (String.rev s)).

Definition comma : Ascii.ascii := Ascii.ascii_of_nat 44.

(** [s.split(/\s*,\s*/)]: the parts between the commas, without the
    white space that touches a comma. *)
Definition split_on_commas (s : string) : list string :=
  let parts := split_on comma s in
  imap (λ i part,
          let part := if bool_decide (i = 0%nat) then part else trim_start part in
          if bool_decide (S i = length parts) then part else trim_end part)
       parts.

(** [headers.append(name, value)] and [headers.delete(name)] *)
Definition headers_append (name value : string) (h : gmap string string)
  : gmap string string :=
  match headers_get name h with
  | Some old => headers_set name (old +:+ ", " +:+ value) h
  | None => headers_set name value h
  end.

Definition headers_delete (name : string) (h : gmap string string)
  : gmap string string :=
  delete (JsString.toLowerCase name) h.

Definition res_headers_append (name value : string) : Handler unit :=
  λ c, (Return tt,
        {| res_headers := headers_append name value (res_headers c);
           effects := effects c |}).

Definition res_headers_delete (name : string) : Handler unit :=
  λ c, (Return tt,
        {| res_headers := headers_delete name (res_headers c);
           effects := effects c |}).

(** [new Response(body, {headers: c.res.headers, status})] *)
Definition respond_with_res_headers (b : Body) (st : Z) : Handler Response :=
  λ c, (new_Response b st (res_headers c), c).

Definition cors_allowMethods : list string := ["GET"; "OPTIONS"].

(** The middleware function: [next] is the rest of the chain, down to the
    handler of the route. An [OPTIONS] request is answered here, and
    [next] is not called. *)
Definition global_cors (req : Request) (next : Handler Response)
  : Handler Response :=
  res_headers_set "Access-Control-Allow-Origin" "*" ;;
  if bool_decide (req_method req = "OPTIONS") then
    res_headers_set "Access-Control-Allow-Methods"
      (String.concat "," cors_allowMethods) ;;
    match req_header "Access-Control-Request-Headers" req with
    | Some requestHeaders =>
        if bool_decide (requestHeaders = "") then mret tt
        else
          res_headers_set "Access-Control-Allow-Headers"
            (String.concat "," (split_on_commas requestHeaders)) ;;
          res_headers_append "Vary" "Access-Control-Request-Headers"
    | None => mret tt
    end ;;
    res_headers_delete "Content-Length" ;;
    res_headers_delete "Content-Type" ;;
    respond_with_res_headers BodyNull 204
  else next.

(** A preflight as a browser sends it before a simple [GET]. *)
Definition preflight_request : Request :=
  {| req_method := "OPTIONS";
     req_headers :=
       headers_set "Access-Control-Request-Method" "GET"
         (headers_set "Origin" "https://app.example" ∅) |}.

(* ===================================================================== *)
(** ** Vocabulary of the further properties                               *)
(* ===================================================================== *)

(** The absolute path with the given segments. *)
Definition abs_path (segments : list string) : string :=
  "/" +:+ String.concat "/" segments.

(** A segment that names a file or a directory: not empty, not a dot
    segment, without separator. *)
Definition clean_segment (seg : string) : Prop :=
  seg ≠ "" ∧ seg ≠ "." ∧ seg ≠ ".." ∧ JsString.includes seg "/" = false.

(** [process.cwd()] is the directory reached from the root through
    [dirs]; the root itself when [dirs] is empty. *)
Definition cwd_is (w : World) (dirs : list string) : Prop :=
  process_cwd w = abs_path dirs ∧ Forall clean_segment dirs.

(** A process started in the root directory. *)
Definition root_world : World :=
  {| process_cwd := "/";
     fs_readFile := λ path,
       if bool_decide (path = "/media/0001.gif")
       then Fulfilled [Byte.x47; Byte.x49; Byte.x46]
       else Rejected {| err_code := Some "ENOENT";
                        err_message := "no such file or directory" |};
     axios_get := λ url cfg,
       if bool_decide (url = "https://v1.cdn.exercisedb.dev/media/0002.gif")
          && bool_decide (responseType cfg = "arraybuffer")
       then Fulfilled {| ax_status := 200; ax_data := [Byte.x47; Byte.x38] |}
       else Rejected {| err_code := Some "ECONNABORTED";
                        err_message := "timeout of 15000ms exceeded" |} |}.

(** The lower-cased names of the headers the [GET] handler or [c.json]
    writes. *)
Definition managed_header_names : list string :=
  ["access-control-allow-origin"; "access-control-allow-methods";
   "access-control-allow-headers"; "content-type"; "cache-control"].

(** A context on which code running before the handler has left headers. *)
Definition upstream_ctx : Ctx :=
  {| res_headers :=
       headers_set "X-Request-Id" "r-42"
         (headers_set "Access-Control-Allow-Origin" "https://app.example" ∅);
     effects := [] |}.

(* ===================================================================== *)
(** ** Examples                                                           *)
(* ===================================================================== *)

Example includes_dots : JsString.includes "a..gif" ".." = true.
Proof. reflexivity. Qed.
Example includes_none : JsString.includes "0001.gif" "/" = false.
Proof. reflexivity. Qed.
Example endsWith_gif : JsString.endsWith "0001.gif" ".gif" = true.
Proof. reflexivity. Qed.
Example endsWith_short : JsString.endsWith "gif" ".gif" = false.
Proof. reflexivity. Qed.
Example endsWith_upper : JsString.endsWith "a.GIF" ".gif" = false.
Proof. reflexivity. Qed.
Example lower_header : JsString.toLowerCase "Content-Type" = "content-type".
Proof. reflexivity. Qed.


Example path_of_gif : mediaPath sample_world "0001.gif" = "/srv/app/media/0001.gif".
Proof. reflexivity. Qed.

Example get_local_gif :
  get_media sample_world (Some "0001.gif") fresh_ctx
  = (Return (found_response [Byte.x47; Byte.x49; Byte.x46] (media_headers ∅)),
     {| res_headers := media_headers ∅;
        effects := [ReadFile "/srv/app/media/0001.gif"] |}).
Proof. reflexivity. Qed.

Example get_traversal :
  get_media sample_world (Some "../etc/passwd") fresh_ctx
  = (Return (invalid_response ∅), fresh_ctx).
Proof. reflexivity. Qed.

Example get_absent_param :
  get_media sample_world None fresh_ctx = (Return (invalid_response ∅), fresh_ctx).
Proof. reflexivity. Qed.

Example get_partial_content :
  get_media sample_world (Some "partial.gif") fresh_ctx
  = (Return (not_found_response (media_headers ∅)),
     {| res_headers := media_headers ∅;
        effects := [ReadFile "/srv/app/media/partial.gif";
                    AxiosGet "https://v1.cdn.exercisedb.dev/media/partial.gif"
                      cdn_request_config] |}).
Proof. reflexivity. Qed.

Example get_timed_out :
  get_media sample_world (Some "missing.gif") fresh_ctx
  = (Return (not_found_response (media_headers ∅)),
     {| res_headers := media_headers ∅;
        effects := [ReadFile "/srv/app/media/missing.gif";
                    AxiosGet "https://v1.cdn.exercisedb.dev/media/missing.gif"
                      cdn_request_config;
                    ConsoleError "Error fetching from CDN:"
                      "timeout of 15000ms exceeded"] |}).
Proof. reflexivity. Qed.

(* ===================================================================== *)
(** ** The string searches meet their declarative readings                *)
(* ===================================================================== *)

Section StringSearch.
Import JsString.

Lemma startsWith_occurs (p s : string) :
  startsWith s p = true ↔ ∃ post, s = p +:+ post.
Proof.
  revert s. induction p as [|b p IH]; intros s.
  - destruct s; simpl; split; eauto.
  - destruct s as [|a s]; simpl.
    + split; [discriminate | intros [post Hpost]; discriminate].
    + destruct (decide (a = b)) as [->|Hab].
      * rewrite IH. split.
        -- intros [post ->]. by exists post.
        -- intros [post Hpost]. exists post. by injection Hpost.
      * split; [discriminate |].
        intros [post Hpost]. injection Hpost as Hhd _. contradiction.
Qed.

Lemma includes_occurs (sub s : string) :
  includes s sub = true ↔ occurs_in sub s.
Proof.
  unfold occurs_in. induction s as [|a s IH].
  - cbn [includes]. rewrite orb_false_r, startsWith_occurs. split.
    + intros [post Hpost]. by exists "", post.
    + intros [[|c pre] [post Hs]]; [by exists post | discriminate].
  - cbn [includes]. rewrite orb_true_iff, startsWith_occurs, IH. split.
    + intros [[post Hpost] | (pre & post & Hs)].
      * by exists "", post.
      * exists (String a pre), post. simpl. by rewrite Hs.
    + intros [[|c pre] [post Hs]].
      * left. by exists post.
      * right. exists pre, post. simpl in Hs. by injection Hs.
Qed.

Lemma length_append (a b : string) :
  String.length (a +:+ b) = (String.length a + String.length b)%nat.
Proof. induction a as [|c a IH]; simpl; [done | by rewrite IH]. Qed.

Lemma substring_whole (s : string) :
  String.substring 0 (String.length s) s = s.
Proof. induction s as [|c s IH]; simpl; [done | by rewrite IH]. Qed.

Lemma substring_after_prefix (pre suf : string) :
  String.substring (String.length pre) (String.length suf) (pre +:+ suf) = suf.
Proof.
  induction pre as [|c pre IH]; simpl; [apply substring_whole | apply IH].
Qed.

Lemma append_String (c : Ascii.ascii) (a b : string) :
  String c a +:+ b = String c (a +:+ b).
Proof. reflexivity. Qed.

Lemma substring_split (s : string) (i : nat) :
  (i ≤ String.length s)%nat →
  s = String.substring 0 i s
      +:+ String.substring i (String.length s - i) s.
Proof.
  revert i. induction s as [|c s IH]; intros [|i] Hi; cbn in *.
  - done.
  - lia.
  - by rewrite substring_whole.
  - rewrite append_String. f_equal. apply IH. lia.
Qed.

Lemma endsWith_suffix (suf s : string) :
  endsWith s suf = true ↔ is_suffix_of suf s.
Proof.
  unfold endsWith, is_suffix_of. split.
  - destruct (decide (String.length suf ≤ String.length s)%nat) as [Hle|];
      [| discriminate].
    intros Hsub%bool_decide_eq_true.
    exists (String.substring 0 (String.length s - String.length suf) s).
    pose proof (substring_split s (String.length s - String.length suf)) as Hs.
    replace (String.length s - (String.length s - String.length suf))%nat
      with (String.length suf) in Hs by lia.
    rewrite Hsub in Hs. apply Hs. lia.
  - intros [pre ->]. rewrite length_append.
    rewrite decide_True by lia. apply bool_decide_eq_true.
    replace (String.length pre + String.length suf - String.length suf)%nat
      with (String.length pre) by lia.
    apply substring_after_prefix.
Qed.

(** The guard of the handler decides the rejection condition of the
    specification. *)
Lemma rejects_spec (param : option string) :
  rejects param = true ↔ spec_invalid_filename param.
Proof.
  destruct param as [raw|]; [| by split].
  unfold rejects, truthy, spec_invalid_filename. simpl default.
  rewrite !orb_true_iff, !negb_true_iff, negb_false_iff.
  rewrite bool_decide_eq_true, !includes_occurs.
  rewrite <- not_true_iff_false, endsWith_suffix. tauto.
Qed.

Lemma accepts_spec (param : option string) :
  rejects param = false ↔ ¬ spec_invalid_filename param.
Proof. rewrite <- rejects_spec. symmetry. apply not_true_iff_false. Qed.

(** A parameter that passes the guard is a string. *)
Lemma accepted_is_string (param : option string) :
  rejects param = false → ∃ filename, param = Some filename.
Proof. destruct param as [f|]; [eauto | discriminate]. Qed.

End StringSearch.

(* ===================================================================== *)
(** ** The header store                                                   *)
(* ===================================================================== *)

(** Replaces every lower-cased literal header name by its value. *)
Ltac lower_names :=
  repeat match goal with
    | |- context [JsString.toLowerCase ?s] =>
        let s' := eval vm_compute in (JsString.toLowerCase s) in
        change (JsString.toLowerCase s) with s'
    end.

Ltac header_lookup :=
  unfold carries_cors, media_headers, headers_get, headers_set;
  lower_names;
  repeat split;
  repeat first
    [ rewrite lookup_insert_eq
    | rewrite lookup_insert_ne by discriminate ];
  try reflexivity.

Section HeaderStore.
Implicit Types h : gmap string string.

Lemma headers_get_set_eq name value h :
  headers_get name (headers_set name value h) = Some value.
Proof. apply lookup_insert_eq. Qed.

Lemma headers_get_set_ne name name' value h :
  JsString.toLowerCase name' ≠ JsString.toLowerCase name →
  headers_get name (headers_set name' value h) = headers_get name h.
Proof. intros Hne. by apply lookup_insert_ne. Qed.

Lemma media_headers_cors h : carries_cors (media_headers h).
Proof. header_lookup. Qed.

Lemma media_headers_content_type h :
  headers_get "Content-Type" (media_headers h) = Some "image/gif".
Proof. header_lookup. Qed.

Lemma media_headers_cache_control h :
  headers_get "Cache-Control" (media_headers h)
  = Some "public, max-age=31536000, immutable".
Proof. header_lookup. Qed.

(** [c.json] replaces the content type and keeps every other header. *)
Lemma json_content_type_wins h :
  headers_get "Content-Type" (headers_set "Content-Type" json_content_type h)
  = Some json_content_type.
Proof. apply headers_get_set_eq. Qed.

Lemma json_keeps_cors h :
  carries_cors h →
  carries_cors (headers_set "Content-Type" json_content_type h).
Proof.
  unfold carries_cors. intros (Ho & Hm & Hh).
  rewrite !headers_get_set_ne by (vm_compute; discriminate). auto.
Qed.

Lemma json_keeps_cache_control h :
  headers_get "Cache-Control" (headers_set "Content-Type" json_content_type h)
  = headers_get "Cache-Control" h.
Proof. apply headers_get_set_ne. vm_compute. discriminate. Qed.

End HeaderStore.

(* ===================================================================== *)
(** ** Running the handlers, path by path                                 *)
(* ===================================================================== *)

Section Paths.
Variable w : World.
Implicit Types (c : Ctx) (filename : string) (param : option string).

Lemma set_media_headers_run c :
  set_media_headers c
  = (Return tt, with_headers (media_headers (res_headers c)) c).
Proof. reflexivity. Qed.

Lemma get_media_rejected param c :
  rejects param = true →
  get_media w param c = (Return (invalid_response (res_headers c)), c).
Proof. intros Hrej. unfold get_media. by rewrite Hrej. Qed.

Lemma get_media_accepted filename c :
  rejects (Some filename) = false →
  get_media w (Some filename) c
  = serve_local_then_cdn w filename
      (with_headers (media_headers (res_headers c)) c).
Proof. intros Hacc. unfold get_media. by rewrite Hacc. Qed.

Lemma serve_local_hit filename c data :
  fs_readFile w (mediaPath w filename) = Fulfilled data →
  serve_local_then_cdn w filename c
  = (Return (found_response data (res_headers c)),
     performs [ReadFile (mediaPath w filename)] c).
Proof.
  intros Hread.
  unfold serve_local_then_cdn, try_catch, await_readFile, mbind,
    handler_bind, bind, perform, await.
  by rewrite Hread.
Qed.

Lemma serve_remote_hit filename c localError response :
  fs_readFile w (mediaPath w filename) = Rejected localError →
  axios_get w (cdnUrl filename) cdn_request_config = Fulfilled response →
  ax_status response = 200 →
  serve_local_then_cdn w filename c
  = (Return (found_response (ax_data response) (res_headers c)),
     performs ([ReadFile (mediaPath w filename)]
               ++ local_error_log localError
               ++ [AxiosGet (cdnUrl filename) cdn_request_config]) c).
Proof.
  intros Hread Hget Hst.
  unfold serve_local_then_cdn, try_catch, await_readFile, await_axios_get,
    console_error, mbind, mret, handler_bind, handler_ret, bind, ret,
    perform, await, local_error_log, performs, found_response.
  rewrite Hread.
  destruct (negb (bool_decide (err_code localError = Some "ENOENT")));
    cbn; rewrite Hget; cbn; rewrite bool_decide_true by done; cbn;
    by rewrite <- ?app_assoc.
Qed.

Lemma serve_remote_other_status filename c localError response :
  fs_readFile w (mediaPath w filename) = Rejected localError →
  axios_get w (cdnUrl filename) cdn_request_config = Fulfilled response →
  ax_status response ≠ 200 →
  serve_local_then_cdn w filename c
  = (Return (not_found_response (res_headers c)),
     performs ([ReadFile (mediaPath w filename)]
               ++ local_error_log localError
               ++ [AxiosGet (cdnUrl filename) cdn_request_config]) c).
Proof.
  intros Hread Hget Hst.
  unfold serve_local_then_cdn, try_catch, await_readFile, await_axios_get,
    console_error, mbind, mret, handler_bind, handler_ret, bind, ret,
    perform, await, local_error_log, performs, not_found_response, c_json.
  rewrite Hread.
  destruct (negb (bool_decide (err_code localError = Some "ENOENT")));
    cbn; rewrite Hget; cbn; rewrite bool_decide_false by done; cbn;
    by rewrite <- ?app_assoc.
Qed.

Lemma serve_remote_rejected filename c localError cdnError :
  fs_readFile w (mediaPath w filename) = Rejected localError →
  axios_get w (cdnUrl filename) cdn_request_config = Rejected cdnError →
  serve_local_then_cdn w filename c
  = (Return (not_found_response (res_headers c)),
     performs ([ReadFile (mediaPath w filename)]
               ++ local_error_log localError
               ++ [AxiosGet (cdnUrl filename) cdn_request_config;
                   ConsoleError "Error fetching from CDN:"
                     (err_message cdnError)]) c).
Proof.
  intros Hread Hget.
  unfold serve_local_then_cdn, try_catch, await_readFile, await_axios_get,
    console_error, mbind, mret, handler_bind, handler_ret, bind, ret,
    perform, await, local_error_log, performs, not_found_response, c_json.
  rewrite Hread.
  destruct (negb (bool_decide (err_code localError = Some "ENOENT")));
    cbn; rewrite Hget; cbn; by rewrite <- ?app_assoc.
Qed.

(** Whatever the surroundings answer, the nested [try]/[catch] returns a
    response, leaves the header store alone and only adds effects. *)
Lemma serve_returns filename c :
  ∃ r evs,
    serve_local_then_cdn w filename c = (Return r, performs evs c)
    ∧ ((∃ data, r = found_response data (res_headers c))
       ∨ r = not_found_response (res_headers c)).
Proof.
  destruct (fs_readFile w (mediaPath w filename)) as [data|e] eqn:Hread.
  { eexists _, _. split; [by apply serve_local_hit | eauto]. }
  destruct (axios_get w (cdnUrl filename) cdn_request_config)
    as [response|e'] eqn:Hget.
  - destruct (decide (ax_status response = 200)) as [Hst|Hst].
    + eexists _, _. split; [by eapply serve_remote_hit | eauto].
    + eexists _, _. split; [by eapply serve_remote_other_status | eauto].
  - eexists _, _. split; [by eapply serve_remote_rejected | eauto].
Qed.

(** The handler as a whole: it returns, and its response is one of the
    three it builds. *)
Lemma get_media_returns param c :
  ∃ r c',
    get_media w param c = (Return r, c')
    ∧ (if rejects param
       then r = invalid_response (res_headers c) ∧ c' = c
       else res_headers c' = media_headers (res_headers c)
            ∧ ((∃ data, r = found_response data (res_headers c'))
               ∨ r = not_found_response (res_headers c'))).
Proof.
  destruct (rejects param) eqn:Hrej.
  - eexists _, _. split; [by apply get_media_rejected | done].
  - destruct (accepted_is_string _ Hrej) as [filename ->].
    rewrite get_media_accepted by done.
    destruct (serve_returns filename
                (with_headers (media_headers (res_headers c)) c))
      as (r & evs & -> & Hr).
    eexists _, _. split; [done |]. split; [done | exact Hr].
Qed.

End Paths.

(* ===================================================================== *)
(** ** Resolving the path of a media file                                 *)
(* ===================================================================== *)

Section PathResolution.
Variable w : World.
Implicit Types filename : string.

Lemma append_assoc (a b d : string) : (a +:+ b) +:+ d = a +:+ b +:+ d.
Proof.
  induction a as [|x a IH]; [done |]. by rewrite !append_String, IH.
Qed.

Lemma append_cancel_l (a x y : string) : a +:+ x = a +:+ y → x = y.
Proof.
  induction a as [|ch a IH]; [done |].
  rewrite !append_String. intros Heq. apply IH. by injection Heq.
Qed.

Lemma slash_free_cons (a : Ascii.ascii) (s : string) :
  JsString.includes (String a s) "/" = false →
  a ≠ slash ∧ JsString.includes s "/" = false.
Proof.
  cbn [JsString.includes JsString.startsWith].
  intros [Hhd Htl]%orb_false_iff. split; [| done].
  intros ->. rewrite decide_True in Hhd by done. by destruct s.
Qed.

Lemma slash_free_startsWith (s : string) :
  JsString.includes s "/" = false → JsString.startsWith s "/" = false.
Proof. destruct s; cbn [JsString.includes]; by intros [? _]%orb_false_iff. Qed.

Lemma split_on_slash_free (s : string) :
  JsString.includes s "/" = false → split_on slash s = [s].
Proof.
  induction s as [|a s IH]; [done |].
  intros [Hhd Htl]%slash_free_cons. cbn [split_on].
  by rewrite decide_False, IH.
Qed.

Lemma split_on_segment (seg rest : string) :
  JsString.includes seg "/" = false →
  split_on slash (seg +:+ "/" +:+ rest) = seg :: split_on slash rest.
Proof.
  induction seg as [|a seg IH]; [done |].
  intros [Hhd Htl]%slash_free_cons. rewrite append_String. cbn [split_on].
  by rewrite decide_False, IH.
Qed.

Lemma split_on_concat (seg : string) (segs : list string) :
  Forall (λ x, JsString.includes x "/" = false) (seg :: segs) →
  split_on slash (String.concat "/" (seg :: segs)) = seg :: segs.
Proof.
  revert seg. induction segs as [|seg' segs IH]; intros seg Hfree.
  - apply split_on_slash_free. by inversion Hfree.
  - inversion Hfree as [|?? Hseg Hrest]; subst.
    change (String.concat "/" (seg :: seg' :: segs))
      with (seg +:+ "/" +:+ String.concat "/" (seg' :: segs)).
    by rewrite split_on_segment, IH.
Qed.

Lemma split_on_concat_then (dirs : list string) (rest : string) :
  Forall (λ x, JsString.includes x "/" = false) dirs →
  split_on slash (String.concat "/" dirs +:+ "/" +:+ rest)
  = (if dirs is [] then [""] else dirs) ++ split_on slash rest.
Proof.
  induction 1 as [|dir dirs Hdir Hdirs IH]; [done |].
  destruct dirs as [|dir' dirs].
  - by apply split_on_segment.
  - change (String.concat "/" (dir :: dir' :: dirs))
      with (dir +:+ "/" +:+ String.concat "/" (dir' :: dirs)).
    rewrite append_assoc, (append_assoc "/"). rewrite split_on_segment by done.
    cbn [app]. f_equal. exact IH.
Qed.

Lemma normalize_clean_segments (allowAboveRoot : bool) (res segs : list string) :
  Forall clean_segment segs →
  foldl (normalize_segment allowAboveRoot) res segs = res ++ segs.
Proof.
  intros Hclean. revert res.
  induction Hclean as [|seg segs (Hne & Hdot & Hdots & _) _ IH]; intros res.
  - by rewrite app_nil_r.
  - cbn [foldl]. unfold normalize_segment at 2.
    rewrite !bool_decide_false by done. cbn.
    by rewrite IH, <- app_assoc.
Qed.

Lemma clean_segments_slash_free (segs : list string) :
  Forall clean_segment segs →
  Forall (λ x, JsString.includes x "/" = false) segs.
Proof. intros Hclean. eapply Forall_impl; [done |]. by intros seg (_ & _ & _ & ?). Qed.

Lemma media_is_clean : clean_segment "media".
Proof. unfold clean_segment. repeat split; discriminate. Qed.

(** The path the handler reads, when the working directory is [dirs] and
    the name is a clean segment. *)
Lemma mediaPath_resolved (dirs : list string) filename :
  cwd_is w dirs →
  clean_segment filename →
  mediaPath w filename = abs_path (dirs ++ ["media"; filename]).
Proof.
  intros [Hcwd Hdirs] Hname.
  assert (JsString.includes filename "/" = false) as Hfree by apply Hname.
  pose proof Hname as (Hne & _).
  unfold mediaPath, path_resolve. cbn [rev app].
  cbn [resolve_from_right].
  rewrite (bool_decide_false (filename = "")) by done.
  rewrite slash_free_startsWith by done.
  rewrite (bool_decide_false ("media" = "")) by done.
  change (JsString.startsWith "media" "/") with false. cbn match.
  rewrite Hcwd. unfold abs_path.
  rewrite bool_decide_false by done.
  assert (JsString.startsWith ("/" +:+ String.concat "/" dirs) "/" = true) as ->.
  { change ("/" +:+ String.concat "/" dirs)
      with (String slash (String.concat "/" dirs)).
    cbn [JsString.startsWith]. rewrite decide_True by done.
    by destruct (String.concat "/" dirs). }
  cbn match. cbn [negb]. unfold normalize_path.
  change (("/" +:+ String.concat "/" dirs) +:+ "/"
          +:+ "media" +:+ "/" +:+ filename +:+ "/" +:+ "")
    with ("" +:+ "/"
          +:+ (String.concat "/" dirs +:+ "/"
               +:+ "media" +:+ "/" +:+ filename +:+ "/" +:+ "")).
  rewrite (split_on_segment "") by done.
  rewrite split_on_concat_then by by apply clean_segments_slash_free.
  rewrite (split_on_segment "media") by done.
  rewrite (split_on_segment filename) by done.
  cbn [split_on foldl]. change (normalize_segment false [] "") with (@nil string).
  rewrite foldl_app.
  assert (foldl (normalize_segment false) [] (if dirs is [] then [""] else dirs)
          = dirs) as ->.
  { destruct dirs; [done |]. by rewrite normalize_clean_segments. }
  change ["media"; filename; ""] with (["media"; filename] ++ [""]).
  rewrite foldl_app, (normalize_clean_segments false dirs ["media"; filename])
    by (constructor; [apply media_is_clean | constructor; [done | constructor]]).
  done.
Qed.

Lemma abs_path_inj (segs1 segs2 : list string) :
  Forall (λ x, JsString.includes x "/" = false) segs1 →
  Forall (λ x, JsString.includes x "/" = false) segs2 →
  segs1 ≠ [] → segs2 ≠ [] →
  abs_path segs1 = abs_path segs2 → segs1 = segs2.
Proof.
  intros H1 H2 Hn1 Hn2 Heq%append_cancel_l.
  destruct segs1 as [|x1 l1], segs2 as [|x2 l2]; try done.
  by rewrite <- (split_on_concat x1 l1), <- (split_on_concat x2 l2), Heq.
Qed.

(** An accepted name is a clean segment. *)
Lemma accepted_name_is_segment filename :
  rejects (Some filename) = false → clean_segment filename.
Proof.
  intros Hacc. unfold clean_segment.
  assert (∀ name, rejects (Some name) = true → filename ≠ name) as Hne.
  { intros name Hrej ->. congruence. }
  repeat split; [by apply Hne .. |].
  unfold rejects in Hacc. simpl default in Hacc.
  repeat apply orb_false_iff in Hacc as [Hacc ?]. done.
Qed.

End PathResolution.

(* ===================================================================== *)
(** ** Validation                                                         *)
(* ===================================================================== *)

(** C1. The [GET] handler answers 400 with the body
    [{success: false, message: 'Invalid filename'}] if and only if the
    file name is absent or empty, contains [..], contains [/], or does not
    end with [.gif]; and then it performs no effect at all: no read of the
    local folder, no fetch from the CDN. *)
Theorem C1_invalid_filename_iff_400 (w : World) (c : Ctx) (param : option string) :
  ((∃ r c', get_media w param c = (Return r, c')
            ∧ status r = 400
            ∧ body r = BodyJson {| success := false;
                                   message := "Invalid filename" |})
   ↔ spec_invalid_filename param)
  ∧ (spec_invalid_filename param →
     ∃ r c', get_media w param c = (Return r, c')
             ∧ effects c' = effects c
             ∧ local_reads (effects c') = local_reads (effects c)
             ∧ remote_fetches (effects c') = remote_fetches (effects c)).
Proof.
  destruct (get_media_returns w param c) as (r & c' & Hrun & Hcases).
  rewrite <- rejects_spec. split; [split |].
  - intros (r0 & c0 & Hrun0 & Hst & _).
    rewrite Hrun in Hrun0. injection Hrun0 as <- <-.
    destruct (rejects param); [done |].
    destruct Hcases as (_ & [[data ->] | ->]); discriminate Hst.
  - intros Hrej. rewrite Hrej in Hcases. destruct Hcases as [-> ->].
    by exists (invalid_response (res_headers c)), c.
  - intros Hrej. rewrite Hrej in Hcases. destruct Hcases as [-> ->].
    by exists (invalid_response (res_headers c)), c.
Qed.

(** C10. The bare extension [.gif] passes the guard, so the handler does
    not answer 400 for it: it sets its headers and goes on to read the
    local folder, then, if that read fails, to fetch from the CDN. *)
Theorem C10_bare_extension_accepted (w : World) (c : Ctx) :
  rejects (Some ".gif") = false
  ∧ ¬ spec_invalid_filename (Some ".gif")
  ∧ ∃ r c' evs,
      get_media w (Some ".gif") c = (Return r, c')
      ∧ status r ≠ 400
      ∧ effects c' = effects c ++ ReadFile (mediaPath w ".gif") :: evs
      ∧ (∀ localError,
           fs_readFile w (mediaPath w ".gif") = Rejected localError →
           AxiosGet (cdnUrl ".gif") cdn_request_config ∈ evs).
Proof.
  assert (rejects (Some ".gif") = false) as Hacc by reflexivity.
  split; [done |]. split; [by apply accepts_spec |].
  rewrite get_media_accepted by done.
  set (c1 := with_headers _ c).
  destruct (fs_readFile w (mediaPath w ".gif")) as [data|e] eqn:Hread.
  { eexists _, _, []. split; [by apply serve_local_hit |]. by repeat split. }
  destruct (axios_get w (cdnUrl ".gif") cdn_request_config)
    as [response|e'] eqn:Hget.
  - destruct (decide (ax_status response = 200)) as [Hst|Hst].
    + eexists _, _, _. split; [by eapply serve_remote_hit |].
      repeat split; [done |]. intros _ _. set_solver.
    + eexists _, _, _. split; [by eapply serve_remote_other_status |].
      repeat split; [done |]. intros _ _. set_solver.
  - eexists _, _, _. split; [by eapply serve_remote_rejected |].
    repeat split; [done |]. intros _ _. set_solver.
Qed.

(* ===================================================================== *)
(** ** CORS headers of the [GET] responses                                *)
(* ===================================================================== *)

(** The guard returns before the header-setting block: an invalid name
    is answered 400 without any of the three CORS headers being set by
    the handler. *)
Lemma C2_invalid_response_without_cors :
  ∃ r c',
    get_media sample_world (Some "notes.txt") fresh_ctx = (Return r, c')
    ∧ status r = 400
    ∧ headers_get "Access-Control-Allow-Origin" (headers r) = None
    ∧ headers_get "Access-Control-Allow-Methods" (headers r) = None
    ∧ headers_get "Access-Control-Allow-Headers" (headers r) = None
    ∧ ¬ carries_cors (headers r).
Proof.
  eexists _, _. split; [by apply get_media_rejected |].
  repeat split; try done.
  intros (Ho & _). simpl in Ho. by rewrite headers_get_set_ne in Ho.
Qed.

(** C2, amended. When the file name passes the guard, the response, 200 or
    404, carries [Access-Control-Allow-Origin: *],
    [Access-Control-Allow-Methods: GET, OPTIONS] and
    [Access-Control-Allow-Headers: *]. When the guard rejects it, the
    handler sets none of them: apart from the content type of the JSON
    body, the 400 response carries the headers the context already had. *)
Theorem C2_cors_on_accepted_requests (w : World) (c : Ctx) (param : option string) :
  (rejects param = false →
   ∃ r c', get_media w param c = (Return r, c')
           ∧ (status r = 200 ∨ status r = 404)
           ∧ carries_cors (headers r))
  ∧ (rejects param = true →
     ∃ r c', get_media w param c = (Return r, c')
             ∧ status r = 400
             ∧ ∀ name,
                 JsString.toLowerCase name ≠ "content-type" →
                 headers_get name (headers r) = headers_get name (res_headers c)).
Proof.
  destruct (get_media_returns w param c) as (r & c' & Hrun & Hcases).
  split; intros Hrej; rewrite Hrej in Hcases; exists r, c'; (split; [done |]).
  - destruct Hcases as (Hh & [[data ->] | ->]); simpl; rewrite Hh.
    + split; [by left | apply media_headers_cors].
    + split; [by right | apply json_keeps_cors, media_headers_cors].
  - destruct Hcases as [-> ->]. split; [done |].
    intros name Hname. simpl. by apply headers_get_set_ne.
Qed.

(* ===================================================================== *)
(** ** The two tiers                                                      *)
(* ===================================================================== *)

(** C3. A file name that passes the guard and that the local folder
    holds, that is, for which reading [/<dirs>/media/<filename>] under the
    working directory [/<dirs>] is fulfilled, is answered 200 with exactly
    the bytes of that file, and the only effect is that one read: the CDN
    is fetched zero times. *)
Theorem C3_local_hit (w : World) (c : Ctx) (dirs : list string)
    (filename : string) (data : bytes) :
  cwd_is w dirs →
  rejects (Some filename) = false →
  fs_readFile w (abs_path (dirs ++ ["media"; filename])) = Fulfilled data →
  ∃ r c' evs,
    get_media w (Some filename) c = (Return r, c')
    ∧ status r = 200
    ∧ body r = BodyBytes data
    ∧ effects c' = effects c ++ evs
    ∧ evs = [ReadFile (abs_path (dirs ++ ["media"; filename]))]
    ∧ remote_fetches evs = 0%nat.
Proof.
  intros Hcwd Hacc Hread.
  rewrite <- (mediaPath_resolved w dirs filename Hcwd) in *
    by by apply accepted_name_is_segment.
  rewrite get_media_accepted by done.
  eexists _, _, _. split; [by apply serve_local_hit |]. by repeat split.
Qed.

Lemma C3_local_hit_witness :
  ∃ r c' evs,
    get_media sample_world (Some "0001.gif") fresh_ctx = (Return r, c')
    ∧ status r = 200
    ∧ body r = BodyBytes [Byte.x47; Byte.x49; Byte.x46]
    ∧ effects c' = effects fresh_ctx ++ evs
    ∧ evs = [ReadFile (abs_path (["srv"; "app"] ++ ["media"; "0001.gif"]))]
    ∧ remote_fetches evs = 0%nat.
Proof.
  apply (C3_local_hit sample_world fresh_ctx ["srv"; "app"] "0001.gif");
    [ split; [reflexivity |];
      repeat constructor; discriminate
    | reflexivity
    | reflexivity ].
Defined.

(** C4. A file name that passes the guard, that the local folder does not
    hold (reading [/<dirs>/media/<filename>] is rejected with [ENOENT]) and
    for which the CDN, asked for
    [https://v1.cdn.exercisedb.dev/media/<filename>], answers 200, is
    answered 200 with exactly the bytes of the CDN; the effects are one
    read of the local folder followed by one fetch, the fetch being issued
    only after the awaited read has settled. *)
Theorem C4_remote_hit (w : World) (c : Ctx) (dirs : list string)
    (filename : string) (localError : JsError) (response : AxiosResponse) :
  cwd_is w dirs →
  rejects (Some filename) = false →
  fs_readFile w (abs_path (dirs ++ ["media"; filename])) = Rejected localError →
  err_code localError = Some "ENOENT" →
  axios_get w ("https://v1.cdn.exercisedb.dev/media/" +:+ filename)
    {| responseType := "arraybuffer";
       timeout := 15000;
       request_headers := [("User-Agent", "Mozilla/5.0 (Windows NT 10.0; Win64; x64) AppleWebKit/537.36")] |}
  = Fulfilled response →
  ax_status response = 200 →
  ∃ r c' evs,
    get_media w (Some filename) c = (Return r, c')
    ∧ status r = 200
    ∧ body r = BodyBytes (ax_data response)
    ∧ effects c' = effects c ++ evs
    ∧ evs = [ReadFile (abs_path (dirs ++ ["media"; filename]));
             AxiosGet ("https://v1.cdn.exercisedb.dev/media/" +:+ filename)
               {| responseType := "arraybuffer";
                  timeout := 15000;
                  request_headers := [("User-Agent", "Mozilla/5.0 (Windows NT 10.0; Win64; x64) AppleWebKit/537.36")] |}]
    ∧ local_reads evs = 1%nat
    ∧ remote_fetches evs = 1%nat.
Proof.
  intros Hcwd Hacc Hread Hcode Hget Hst.
  rewrite <- (mediaPath_resolved w dirs filename Hcwd) in *
    by by apply accepted_name_is_segment.
  rewrite get_media_accepted by done.
  eexists _, _, _. split; [by eapply serve_remote_hit |].
  unfold local_error_log. rewrite Hcode, bool_decide_true by done.
  by repeat split.
Qed.

Lemma C4_remote_hit_witness :
  ∃ r c' evs,
    get_media sample_world (Some "0002.gif") fresh_ctx = (Return r, c')
    ∧ status r = 200
    ∧ body r = BodyBytes (ax_data {| ax_status := 200;
                                     ax_data := [Byte.x47; Byte.x38] |})
    ∧ effects c' = effects fresh_ctx ++ evs
    ∧ evs = [ReadFile (abs_path (["srv"; "app"] ++ ["media"; "0002.gif"]));
             AxiosGet ("https://v1.cdn.exercisedb.dev/media/" +:+ "0002.gif")
               {| responseType := "arraybuffer";
                  timeout := 15000;
                  request_headers := [("User-Agent", "Mozilla/5.0 (Windows NT 10.0; Win64; x64) AppleWebKit/537.36")] |}]
    ∧ local_reads evs = 1%nat
    ∧ remote_fetches evs = 1%nat.
Proof.
  apply (C4_remote_hit sample_world fresh_ctx ["srv"; "app"] "0002.gif" enoent
           {| ax_status := 200; ax_data := [Byte.x47; Byte.x38] |});
    [ split; [reflexivity |];
      repeat constructor; discriminate
    | reflexivity
    | reflexivity
    | reflexivity
    | reflexivity
    | reflexivity ].
Defined.

(** C5. Once the local read of an accepted file name has failed, every
    failure of the fetch, be it a fulfilled response with a status other
    than 200 or a rejection (transport error, refused status, the 15000 ms
    of [timeout] running out), ends in one and the same returned response:
    404 with [{success: false, message: 'Media not found'}]. Nothing is
    thrown, and the response does not depend on the way the fetch failed. *)
Theorem C5_remote_failure_is_404 (w : World) (c : Ctx) (filename : string)
    (localError : JsError) :
  rejects (Some filename) = false →
  fs_readFile w (mediaPath w filename) = Rejected localError →
  remote_failed (axios_get w (cdnUrl filename) cdn_request_config) →
  timeout cdn_request_config = 15000
  ∧ ∃ c',
      get_media w (Some filename) c
      = (Return (not_found_response (media_headers (res_headers c))), c')
      ∧ status (not_found_response (media_headers (res_headers c))) = 404
      ∧ body (not_found_response (media_headers (res_headers c)))
        = BodyJson {| success := false; message := "Media not found" |}.
Proof.
  intros Hacc Hread Hfail. split; [done |].
  rewrite get_media_accepted by done.
  destruct (axios_get w (cdnUrl filename) cdn_request_config)
    as [response|cdnError] eqn:Hget.
  - eexists. split; [by eapply serve_remote_other_status | done].
  - eexists. split; [by eapply serve_remote_rejected | done].
Qed.

Lemma C5_remote_failure_is_404_witness :
  timeout cdn_request_config = 15000
  ∧ ∃ c',
      get_media sample_world (Some "missing.gif") fresh_ctx
      = (Return (not_found_response (media_headers (res_headers fresh_ctx))), c')
      ∧ status (not_found_response (media_headers (res_headers fresh_ctx))) = 404
      ∧ body (not_found_response (media_headers (res_headers fresh_ctx)))
        = BodyJson {| success := false; message := "Media not found" |}.
Proof.
  apply (C5_remote_failure_is_404 sample_world fresh_ctx "missing.gif" enoent);
    [reflexivity | reflexivity | exact I].
Defined.

(** C6. When the local read of an accepted file name fails with an error
    whose code is not [ENOENT], the handler writes the error to the console
    and then fetches from the CDN all the same: the local folder is read
    once, and the response is the one the fetch decides, 200 with the bytes
    of the CDN when it answers 200, 404 only when the fetch failed. *)
Theorem C6_local_error_falls_back (w : World) (c : Ctx) (filename : string)
    (localError : JsError) :
  rejects (Some filename) = false →
  fs_readFile w (mediaPath w filename) = Rejected localError →
  err_code localError ≠ Some "ENOENT" →
  ∃ r c' evs,
    get_media w (Some filename) c = (Return r, c')
    ∧ effects c'
      = effects c
        ++ [ReadFile (mediaPath w filename);
            ConsoleError "Error reading local file:" (err_message localError);
            AxiosGet (cdnUrl filename) cdn_request_config]
        ++ evs
    ∧ local_reads evs = 0%nat
    ∧ ((∃ response,
          axios_get w (cdnUrl filename) cdn_request_config = Fulfilled response
          ∧ ax_status response = 200
          ∧ status r = 200
          ∧ body r = BodyBytes (ax_data response))
       ∨ (remote_failed (axios_get w (cdnUrl filename) cdn_request_config)
          ∧ status r = 404
          ∧ body r = BodyJson media_not_found_body)).
Proof.
  intros Hacc Hread Hcode. rewrite get_media_accepted by done.
  assert (local_error_log localError
          = [ConsoleError "Error reading local file:" (err_message localError)])
    as Hlog.
  { unfold local_error_log. by rewrite bool_decide_false. }
  destruct (axios_get w (cdnUrl filename) cdn_request_config)
    as [response|cdnError] eqn:Hget.
  - destruct (decide (ax_status response = 200)) as [Hst|Hst].
    + eexists _, _, []. split; [by eapply serve_remote_hit |].
      rewrite Hlog. split; [done |]. split; [done |]. left. by exists response.
    + eexists _, _, []. split; [by eapply serve_remote_other_status |].
      rewrite Hlog. split; [done |]. split; [done |]. by right.
  - eexists _, _, [_]. split; [by eapply serve_remote_rejected |].
    rewrite Hlog. split; [done |]. split; [done |]. by right.
Qed.

Lemma C6_local_error_falls_back_witness :
  ∃ r c' evs,
    get_media sample_world (Some "locked.gif") fresh_ctx = (Return r, c')
    ∧ effects c'
      = effects fresh_ctx
        ++ [ReadFile (mediaPath sample_world "locked.gif");
            ConsoleError "Error reading local file:" (err_message eacces);
            AxiosGet (cdnUrl "locked.gif") cdn_request_config]
        ++ evs
    ∧ local_reads evs = 0%nat
    ∧ ((∃ response,
          axios_get sample_world (cdnUrl "locked.gif") cdn_request_config
          = Fulfilled response
          ∧ ax_status response = 200
          ∧ status r = 200
          ∧ body r = BodyBytes (ax_data response))
       ∨ (remote_failed
            (axios_get sample_world (cdnUrl "locked.gif") cdn_request_config)
          ∧ status r = 404
          ∧ body r = BodyJson media_not_found_body)).
Proof.
  apply (C6_local_error_falls_back sample_world fresh_ctx "locked.gif" eacces);
    [reflexivity | reflexivity | discriminate].
Defined.

(* ===================================================================== *)
(** ** One outcome per request                                            *)
(* ===================================================================== *)

(** C7. Whatever the parameter and whatever the local read and the fetch
    do, running the [GET] handler returns a response, never a thrown
    error, and that response carries exactly one of the three outcomes:
    Found (200), NotFound (404) or Invalid (400). *)
Theorem C7_one_outcome_no_throw (w : World) (c : Ctx) (param : option string) :
  ∃ r c',
    get_media w param c = (Return r, c')
    ∧ ∃ o, is_outcome o r ∧ ∀ o', is_outcome o' r → o' = o.
Proof.
  destruct (get_media_returns w param c) as (r & c' & Hrun & Hcases).
  exists r, c'. split; [done |].
  destruct (rejects param).
  - destruct Hcases as [-> _]. exists Invalid. split; [done |].
    by intros [] [Hst _].
  - destruct Hcases as (_ & [[data ->] | ->]).
    + exists Found. split; [by split; [| exists data] |].
      by intros [] [Hst _].
    + exists NotFound. split; [done |].
      by intros [] [Hst _].
Qed.

(* ===================================================================== *)
(** ** The preflight handler                                              *)
(* ===================================================================== *)

(** The callback registered for [OPTIONS] on the media route, taken on its
    own: for every parameter, valid or not, it returns 204 with no body
    and with the three CORS headers set; it never looks at the parameter
    and performs no read and no fetch. *)
Lemma options_media_sets_cors (c : Ctx) (param : option string) :
  ∃ r c',
    options_media param c = (Return r, c')
    ∧ status r = 204
    ∧ body r = BodyNull
    ∧ carries_cors (headers r)
    ∧ effects c' = effects c
    ∧ ∀ param', options_media param' c = (Return r, c').
Proof.
  eexists _, _. split; [reflexivity |].
  repeat split; try done; cbn; header_lookup.
Qed.

(** C8. An [OPTIONS] request to the media route does not reach that
    callback: the CORS middleware registered before every route answers
    it, whatever follows in the chain. For a preflight that names no
    request headers the answer is 204 without body, with
    [Access-Control-Allow-Origin: *] and
    [Access-Control-Allow-Methods: GET,OPTIONS] (not [GET, OPTIONS]), and
    with no [Access-Control-Allow-Headers] besides what the context held;
    nothing is validated, read or fetched. *)
Theorem C8_preflight_answered_by_cors (req : Request)
    (next : Handler Response) (c : Ctx) :
  req_method req = "OPTIONS" →
  req_header "Access-Control-Request-Headers" req = None →
  ∃ r c',
    global_cors req next c = (Return r, c')
    ∧ (∀ next', global_cors req next' c = (Return r, c'))
    ∧ status r = 204
    ∧ body r = BodyNull
    ∧ headers_get "Access-Control-Allow-Origin" (headers r) = Some "*"
    ∧ headers_get "Access-Control-Allow-Methods" (headers r)
      = Some "GET,OPTIONS"
    ∧ headers_get "Access-Control-Allow-Methods" (headers r)
      ≠ Some "GET, OPTIONS"
    ∧ headers_get "Access-Control-Allow-Headers" (headers r)
      = headers_get "Access-Control-Allow-Headers" (res_headers c)
    ∧ effects c' = effects c.
Proof.
  intros Hmethod Hrequested.
  assert (∀ next', global_cors req next' c
                   = (Return {| status := 204;
                                body := BodyNull;
                                headers :=
                                  headers_delete "Content-Type"
                                    (headers_delete "Content-Length"
                                       (headers_set "Access-Control-Allow-Methods"
                                          "GET,OPTIONS"
                                          (headers_set
                                             "Access-Control-Allow-Origin" "*"
                                             (res_headers c)))) |},
                      {| res_headers :=
                           headers_delete "Content-Type"
                             (headers_delete "Content-Length"
                                (headers_set "Access-Control-Allow-Methods"
                                   "GET,OPTIONS"
                                   (headers_set
                                      "Access-Control-Allow-Origin" "*"
                                      (res_headers c))));
                         effects := effects c |})) as Hrun.
  { intros next'. unfold global_cors.
    rewrite Hrequested, bool_decide_true by done. reflexivity. }
  eexists _, _. split; [apply Hrun |]. split; [apply Hrun |].
  cbn [status body headers effects].
  unfold headers_get, headers_delete, headers_set. lower_names.
  repeat split.
  - by rewrite !lookup_delete_ne, lookup_insert_ne, lookup_insert_eq.
  - by rewrite !lookup_delete_ne, lookup_insert_eq.
  - by rewrite !lookup_delete_ne, lookup_insert_eq.
  - by rewrite !lookup_delete_ne, !lookup_insert_ne.
Qed.

Lemma C8_preflight_answered_by_cors_witness :
  ∃ r c',
    global_cors preflight_request (options_media (Some "0001.gif")) fresh_ctx
    = (Return r, c')
    ∧ (∀ next', global_cors preflight_request next' fresh_ctx = (Return r, c'))
    ∧ status r = 204
    ∧ body r = BodyNull
    ∧ headers_get "Access-Control-Allow-Origin" (headers r) = Some "*"
    ∧ headers_get "Access-Control-Allow-Methods" (headers r)
      = Some "GET,OPTIONS"
    ∧ headers_get "Access-Control-Allow-Methods" (headers r)
      ≠ Some "GET, OPTIONS"
    ∧ headers_get "Access-Control-Allow-Headers" (headers r)
      = headers_get "Access-Control-Allow-Headers" (res_headers fresh_ctx)
    ∧ effects c' = effects fresh_ctx.
Proof.
  apply (C8_preflight_answered_by_cors preflight_request
           (options_media (Some "0001.gif")) fresh_ctx);
    reflexivity.
Defined.

(* ===================================================================== *)
(** ** Content type and caching of the [GET] responses                    *)
(* ===================================================================== *)

(** On the 404 path the content type of the response is the one [c.json]
    gives it, not the [image/gif] set on the context before. *)
Lemma C9_not_found_content_type_is_json :
  ∃ r c',
    get_media sample_world (Some "missing.gif") fresh_ctx = (Return r, c')
    ∧ status r = 404
    ∧ headers_get "Content-Type" (headers r) = Some "application/json"
    ∧ headers_get "Content-Type" (headers r) ≠ Some "image/gif".
Proof.
  rewrite get_media_accepted by reflexivity.
  eexists _, _.
  split; [by eapply (serve_remote_rejected _ _ _ enoent etimedout) |].
  split; [done |]. simpl. rewrite json_content_type_wins. by split.
Qed.

(** C9, amended. For every file name that passes the guard, the handler
    sets [Content-Type: image/gif] and
    [Cache-Control: public, max-age=31536000, immutable] on the context
    before the local read and the fetch, which start from that header store
    and leave it as it is. The cache directive is therefore on every
    response, 404 included; the content type of a response is [image/gif]
    when it is 200 and the JSON content type of [c.json] when it is 404. *)
Theorem C9_headers_set_before_resolution (w : World) (c : Ctx) (filename : string) :
  rejects (Some filename) = false →
  let c1 := with_headers (media_headers (res_headers c)) c in
  headers_get "Content-Type" (res_headers c1) = Some "image/gif"
  ∧ headers_get "Cache-Control" (res_headers c1)
    = Some "public, max-age=31536000, immutable"
  ∧ effects c1 = effects c
  ∧ get_media w (Some filename) c = serve_local_then_cdn w filename c1
  ∧ ∃ r c',
      get_media w (Some filename) c = (Return r, c')
      ∧ res_headers c' = res_headers c1
      ∧ (status r = 200 ∨ status r = 404)
      ∧ headers_get "Cache-Control" (headers r)
        = Some "public, max-age=31536000, immutable"
      ∧ (status r = 200 →
         headers_get "Content-Type" (headers r) = Some "image/gif")
      ∧ (status r = 404 →
         headers_get "Content-Type" (headers r) = Some json_content_type).
Proof.
  intros Hacc c1.
  split; [apply media_headers_content_type |].
  split; [apply media_headers_cache_control |].
  split; [done |].
  split; [by apply get_media_accepted |].
  destruct (get_media_returns w (Some filename) c) as (r & c' & Hrun & Hcases).
  rewrite Hacc in Hcases. destruct Hcases as (Hh & Hr).
  exists r, c'. split; [done |]. split; [done |].
  destruct Hr as [[data ->] | ->]; simpl; rewrite Hh.
  - split; [by left |]. split; [apply media_headers_cache_control |].
    split; [intros _; apply media_headers_content_type | done].
  - split; [by right |].
    split; [rewrite json_keeps_cache_control; apply media_headers_cache_control |].
    split; [done | intros _; apply json_content_type_wins].
Qed.

Lemma C9_headers_set_before_resolution_witness :
  let c1 := with_headers (media_headers (res_headers fresh_ctx)) fresh_ctx in
  headers_get "Content-Type" (res_headers c1) = Some "image/gif"
  ∧ headers_get "Cache-Control" (res_headers c1)
    = Some "public, max-age=31536000, immutable"
  ∧ effects c1 = effects fresh_ctx
  ∧ get_media sample_world (Some "missing.gif") fresh_ctx
    = serve_local_then_cdn sample_world "missing.gif" c1
  ∧ ∃ r c',
      get_media sample_world (Some "missing.gif") fresh_ctx = (Return r, c')
      ∧ res_headers c' = res_headers c1
      ∧ (status r = 200 ∨ status r = 404)
      ∧ headers_get "Cache-Control" (headers r)
        = Some "public, max-age=31536000, immutable"
      ∧ (status r = 200 →
         headers_get "Content-Type" (headers r) = Some "image/gif")
      ∧ (status r = 404 →
         headers_get "Content-Type" (headers r) = Some json_content_type).
Proof.
  apply (C9_headers_set_before_resolution sample_world fresh_ctx "missing.gif").
  reflexivity.
Defined.

(* ===================================================================== *)
(** ** Further properties of the [GET] handler                            *)
(* ===================================================================== *)

Section MediaRuns.
Variable w : World.
Implicit Types (c : Ctx) (filename : string) (param : option string).

(** The run of the handler on an accepted name, read off the way the read
    and the fetch settle. *)
Lemma accepted_run filename c :
  rejects (Some filename) = false →
  ∃ r evs,
    get_media w (Some filename) c
    = (Return r, performs evs (with_headers (media_headers (res_headers c)) c))
    ∧ match fs_readFile w (mediaPath w filename),
            axios_get w (cdnUrl filename) cdn_request_config with
      | Fulfilled data, _ =>
          r = found_response data (media_headers (res_headers c))
          ∧ evs = [ReadFile (mediaPath w filename)]
      | Rejected e, Fulfilled response =>
          r = (if bool_decide (ax_status response = 200)
               then found_response (ax_data response)
                      (media_headers (res_headers c))
               else not_found_response (media_headers (res_headers c)))
          ∧ evs = [ReadFile (mediaPath w filename)]
                  ++ local_error_log e
                  ++ [AxiosGet (cdnUrl filename) cdn_request_config]
      | Rejected e, Rejected e' =>
          r = not_found_response (media_headers (res_headers c))
          ∧ evs = [ReadFile (mediaPath w filename)]
                  ++ local_error_log e
                  ++ [AxiosGet (cdnUrl filename) cdn_request_config;
                      ConsoleError "Error fetching from CDN:" (err_message e')]
      end.
Proof.
  intros Hacc. rewrite get_media_accepted by done.
  destruct (fs_readFile w (mediaPath w filename)) as [data|e] eqn:Hread.
  { eexists _, _. split; [by apply serve_local_hit | done]. }
  destruct (axios_get w (cdnUrl filename) cdn_request_config)
    as [response|e'] eqn:Hget.
  - destruct (decide (ax_status response = 200)) as [Hst|Hst].
    + eexists _, _. split; [by eapply serve_remote_hit |].
      by rewrite bool_decide_true.
    + eexists _, _. split; [by eapply serve_remote_other_status |].
      by rewrite bool_decide_false.
  - eexists _, _. split; [by eapply serve_remote_rejected | done].
Qed.

Lemma accepted_name_is_clean filename :
  rejects (Some filename) = false →
  ¬ JsString.occurs_in "/" filename
  ∧ ¬ JsString.occurs_in ".." filename
  ∧ JsString.is_suffix_of ".gif" filename.
Proof.
  intros Hacc%accepts_spec. unfold spec_invalid_filename in Hacc.
  repeat split; try tauto.
  destruct (JsString.endsWith filename ".gif") eqn:Hend.
  - by apply endsWith_suffix.
  - exfalso. apply Hacc. do 3 right. rewrite <- endsWith_suffix. congruence.
Qed.

End MediaRuns.

Ltac split_effects H :=
  unfold local_error_log in H;
  repeat match type of H with
    | context [if ?b then _ else _] => destruct b
    end;
  set_unfold in H;
  repeat match type of H with
    | _ ∨ _ => destruct H as [H | H]
    end;
  try discriminate H; try contradiction.

(** X1. The handler never reads outside the [media] folder of the working
    directory: when that directory is [/<dirs>], whatever the parameter, a
    file the handler reads is [/<dirs>/media/<name>] for the requested
    name itself, which then holds neither [/] nor [..]. In the root
    directory that is [/media/<name>]. *)
Theorem media_reads_stay_in_media_folder (w : World) (c : Ctx)
    (param : option string) (dirs : list string) :
  cwd_is w dirs →
  ∃ r c' evs,
    get_media w param c = (Return r, c')
    ∧ effects c' = effects c ++ evs
    ∧ ∀ path,
        ReadFile path ∈ evs →
        ∃ name,
          param = Some name
          ∧ path = abs_path (dirs ++ ["media"; name])
          ∧ ¬ JsString.occurs_in "/" name
          ∧ ¬ JsString.occurs_in ".." name.
Proof.
  intros Hcwd. destruct (rejects param) eqn:Hrej.
  - eexists _, _, []. split; [by apply get_media_rejected |].
    split; [by rewrite app_nil_r |]. intros path Hin. by set_unfold in Hin.
  - destruct (accepted_is_string _ Hrej) as [name ->].
    destruct (accepted_run w name c Hrej) as (r & evs & Hrun & Hcases).
    destruct (accepted_name_is_clean name Hrej) as (Hslash & Hdots & _).
    eexists _, _, _. split; [exact Hrun |]. split; [done |].
    intros path Hin. exists name.
    assert (path = mediaPath w name) as ->.
    { destruct (fs_readFile w (mediaPath w name)) as [data|e];
        [| destruct (axios_get w (cdnUrl name) cdn_request_config)];
        destruct Hcases as [_ ->]; split_effects Hin; congruence. }
    rewrite (mediaPath_resolved w dirs name Hcwd)
      by by apply accepted_name_is_segment.
    done.
Qed.

Lemma media_reads_stay_in_media_folder_witness :
  ∃ r c' evs,
    get_media root_world (Some "0001.gif") fresh_ctx = (Return r, c')
    ∧ effects c' = effects fresh_ctx ++ evs
    ∧ ∀ path,
        ReadFile path ∈ evs →
        ∃ name,
          Some "0001.gif" = Some name
          ∧ path = abs_path ([] ++ ["media"; name])
          ∧ ¬ JsString.occurs_in "/" name
          ∧ ¬ JsString.occurs_in ".." name.
Proof.
  apply (media_reads_stay_in_media_folder root_world fresh_ctx
           (Some "0001.gif") []).
  split; [reflexivity | constructor].
Defined.

(** X2. The handler only ever fetches from the CDN: a fetch goes to
    [https://v1.cdn.exercisedb.dev/media/<name>] for the requested name,
    asks for an [arraybuffer], allows 15000 ms and sends the one header
    [User-Agent] of a browser, and is made only after the local read of
    that name was rejected. *)
Theorem media_fetches_go_to_cdn (w : World) (c : Ctx) (param : option string) :
  ∃ r c' evs,
    get_media w param c = (Return r, c')
    ∧ effects c' = effects c ++ evs
    ∧ ∀ url cfg,
        AxiosGet url cfg ∈ evs →
        ∃ name localError,
          param = Some name
          ∧ url = "https://v1.cdn.exercisedb.dev/media/" +:+ name
          ∧ responseType cfg = "arraybuffer"
          ∧ timeout cfg = 15000
          ∧ request_headers cfg
            = [("User-Agent",
                "Mozilla/5.0 (Windows NT 10.0; Win64; x64) AppleWebKit/537.36")]
          ∧ ¬ JsString.occurs_in "/" name
          ∧ ¬ JsString.occurs_in ".." name
          ∧ fs_readFile w (mediaPath w name) = Rejected localError.
Proof.
  destruct (rejects param) eqn:Hrej.
  - eexists _, _, []. split; [by apply get_media_rejected |].
    split; [by rewrite app_nil_r |]. intros url cfg Hin. by set_unfold in Hin.
  - destruct (accepted_is_string _ Hrej) as [name ->].
    destruct (accepted_run w name c Hrej) as (r & evs & Hrun & Hcases).
    destruct (accepted_name_is_clean name Hrej) as (Hslash & Hdots & _).
    eexists _, _, _. split; [exact Hrun |]. split; [done |].
    intros url cfg Hin.
    destruct (fs_readFile w (mediaPath w name)) as [data|e] eqn:Hread.
    { destruct Hcases as [_ ->]. split_effects Hin. }
    exists name, e.
    assert (url = cdnUrl name ∧ cfg = cdn_request_config) as [-> ->].
    { destruct (axios_get w (cdnUrl name) cdn_request_config);
        destruct Hcases as [_ ->]; split_effects Hin;
        by injection Hin as -> ->. }
    by repeat split.
Qed.

Lemma local_error_log_enoent (e : JsError) :
  err_code e = Some "ENOENT" → local_error_log e = [].
Proof. intros Hc. unfold local_error_log. by rewrite bool_decide_true. Qed.

Lemma local_error_log_other (e : JsError) :
  err_code e ≠ Some "ENOENT" →
  local_error_log e = [ConsoleError "Error reading local file:" (err_message e)].
Proof. intros Hc. unfold local_error_log. by rewrite bool_decide_false. Qed.

(** X3. On every path the handler reads the local folder at most once and
    fetches at most once: an accepted name is read exactly once, and
    fetched exactly once when that read was rejected, never otherwise;
    a rejected name causes neither. A read always precedes a fetch. *)
Theorem media_one_read_then_one_fetch (w : World) (c : Ctx) (param : option string) :
  ∃ r c' evs,
    get_media w param c = (Return r, c')
    ∧ effects c' = effects c ++ evs
    ∧ local_reads evs = (if rejects param then 0 else 1)%nat
    ∧ remote_fetches evs
      = (if rejects param then 0
         else match fs_readFile w (mediaPath w (default "" param)) with
              | Fulfilled _ => 0
              | Rejected _ => 1
              end)%nat
    ∧ ∀ i j url cfg path,
        evs !! i = Some (AxiosGet url cfg) →
        evs !! j = Some (ReadFile path) →
        (j < i)%nat.
Proof.
  destruct (rejects param) eqn:Hrej.
  - eexists _, _, []. split; [by apply get_media_rejected |].
    split; [by rewrite app_nil_r |]. by repeat split.
  - destruct (accepted_is_string _ Hrej) as [name ->].
    destruct (accepted_run w name c Hrej) as (r & evs & Hrun & Hcases).
    eexists _, _, _. split; [exact Hrun |]. split; [done |]. simpl default.
    destruct (fs_readFile w (mediaPath w name)) as [data|e].
    { destruct Hcases as [_ ->]. repeat split.
      intros [|i] [|j] ?????; simplify_eq/=. }
    destruct (axios_get w (cdnUrl name) cdn_request_config);
      destruct Hcases as [_ ->];
      (destruct (decide (err_code e = Some "ENOENT")) as [Hc|Hc];
       [rewrite (local_error_log_enoent _ Hc)
       |rewrite (local_error_log_other _ Hc)]);
      (repeat split;
       intros [|[|[|[|i]]]] [|[|[|[|j]]]] ?????; simplify_eq/=; lia).
Qed.

(** X4. For an accepted name the status is decided by the two tiers alone: it
    is 200 exactly when the local read is fulfilled or, that read being
    rejected, the fetch is fulfilled with status 200, and 404 exactly when
    the read is rejected and the fetch fails. The local bytes win: when
    the read is fulfilled they are the body, whatever the CDN holds. *)
Theorem media_status_decided_by_tiers (w : World) (c : Ctx) (filename : string) :
  rejects (Some filename) = false →
  ∃ r c',
    get_media w (Some filename) c = (Return r, c')
    ∧ (status r = 200 ↔
       (∃ data, fs_readFile w (mediaPath w filename) = Fulfilled data)
       ∨ (∃ response,
            axios_get w (cdnUrl filename) cdn_request_config = Fulfilled response
            ∧ ax_status response = 200))
    ∧ (status r = 404 ↔
       (∃ localError, fs_readFile w (mediaPath w filename) = Rejected localError)
       ∧ remote_failed (axios_get w (cdnUrl filename) cdn_request_config))
    ∧ (∀ data,
         fs_readFile w (mediaPath w filename) = Fulfilled data →
         status r = 200 ∧ body r = BodyBytes data).
Proof.
  intros Hacc.
  destruct (accepted_run w filename c Hacc) as (r & evs & Hrun & Hcases).
  eexists _, _. split; [exact Hrun |].
  destruct (fs_readFile w (mediaPath w filename)) as [data|e].
  { destruct Hcases as [-> _]. simpl. split; [naive_solver |].
    split; [naive_solver |]. intros ? [= <-]. done. }
  destruct (axios_get w (cdnUrl filename) cdn_request_config)
    as [response|e'].
  - destruct Hcases as [-> _]. case_bool_decide; simpl; naive_solver.
  - destruct Hcases as [-> _]. simpl. naive_solver.
Qed.

Lemma media_status_decided_by_tiers_witness :
  ∃ r c',
    get_media sample_world (Some "0001.gif") fresh_ctx = (Return r, c')
    ∧ (status r = 200 ↔
       (∃ data,
          fs_readFile sample_world (mediaPath sample_world "0001.gif")
          = Fulfilled data)
       ∨ (∃ response,
            axios_get sample_world (cdnUrl "0001.gif") cdn_request_config
            = Fulfilled response
            ∧ ax_status response = 200))
    ∧ (status r = 404 ↔
       (∃ localError,
          fs_readFile sample_world (mediaPath sample_world "0001.gif")
          = Rejected localError)
       ∧ remote_failed
           (axios_get sample_world (cdnUrl "0001.gif") cdn_request_config))
    ∧ (∀ data,
         fs_readFile sample_world (mediaPath sample_world "0001.gif")
         = Fulfilled data →
         status r = 200 ∧ body r = BodyBytes data).
Proof.
  apply (media_status_decided_by_tiers sample_world fresh_ctx "0001.gif").
  reflexivity.
Defined.

(** X5. What an accepted request writes to the console: the message of a
    local error whose code is not [ENOENT], and the message of a rejected
    fetch; nothing else. A missing local file is passed over in silence,
    and so is a fetch fulfilled with a status other than 200. *)
Theorem media_console_lines (w : World) (c : Ctx) (filename : string) :
  rejects (Some filename) = false →
  ∃ r c' evs,
    get_media w (Some filename) c = (Return r, c')
    ∧ effects c' = effects c ++ evs
    ∧ ∀ label msg,
        ConsoleError label msg ∈ evs ↔
        (∃ localError,
           fs_readFile w (mediaPath w filename) = Rejected localError
           ∧ err_code localError ≠ Some "ENOENT"
           ∧ label = "Error reading local file:"
           ∧ msg = err_message localError)
        ∨ (∃ localError cdnError,
             fs_readFile w (mediaPath w filename) = Rejected localError
             ∧ axios_get w (cdnUrl filename) cdn_request_config
               = Rejected cdnError
             ∧ label = "Error fetching from CDN:"
             ∧ msg = err_message cdnError).
Proof.
  intros Hacc.
  destruct (accepted_run w filename c Hacc) as (r & evs & Hrun & Hcases).
  eexists _, _, _. split; [exact Hrun |]. split; [done |].
  intros label msg.
  destruct (fs_readFile w (mediaPath w filename)) as [data|e].
  { destruct Hcases as [_ ->]. set_unfold. naive_solver. }
  destruct (axios_get w (cdnUrl filename) cdn_request_config)
    as [response|e'];
    destruct Hcases as [_ ->];
    (destruct (decide (err_code e = Some "ENOENT")) as [Hc|Hc];
     [rewrite (local_error_log_enoent _ Hc)
     |rewrite (local_error_log_other _ Hc)]);
    set_unfold; naive_solver.
Qed.

Lemma media_console_lines_witness :
  ∃ r c' evs,
    get_media sample_world (Some "partial.gif") fresh_ctx = (Return r, c')
    ∧ effects c' = effects fresh_ctx ++ evs
    ∧ ∀ label msg,
        ConsoleError label msg ∈ evs ↔
        (∃ localError,
           fs_readFile sample_world (mediaPath sample_world "partial.gif")
           = Rejected localError
           ∧ err_code localError ≠ Some "ENOENT"
           ∧ label = "Error reading local file:"
           ∧ msg = err_message localError)
        ∨ (∃ localError cdnError,
             fs_readFile sample_world (mediaPath sample_world "partial.gif")
             = Rejected localError
             ∧ axios_get sample_world (cdnUrl "partial.gif") cdn_request_config
               = Rejected cdnError
             ∧ label = "Error fetching from CDN:"
             ∧ msg = err_message cdnError).
Proof.
  apply (media_console_lines sample_world fresh_ctx "partial.gif").
  reflexivity.
Defined.

(** X6. Headers that were on the context before the handler ran, under a name
    the handler does not write itself, are on the response unchanged,
    whatever its status. *)
Theorem media_keeps_upstream_headers (w : World) (c : Ctx)
    (param : option string) (name : string) :
  JsString.toLowerCase name ∉ managed_header_names →
  ∃ r c',
    get_media w param c = (Return r, c')
    ∧ headers_get name (headers r) = headers_get name (res_headers c)
    ∧ headers_get name (res_headers c') = headers_get name (res_headers c).
Proof.
  intros Hname.
  destruct (get_media_returns w param c) as (r & c' & Hrun & Hcases).
  exists r, c'. split; [done |].
  unfold headers_get. set (k := JsString.toLowerCase name) in *. clearbody k.
  unfold managed_header_names in Hname. set_unfold in Hname.
  assert (∀ v h, headers_set "Content-Type" v h !! k = h !! k) as Hjson.
  { intros v h. unfold headers_set. lower_names.
    rewrite lookup_insert_ne; [done | naive_solver]. }
  assert (∀ h, media_headers h !! k = h !! k) as Hmedia.
  { intros h. unfold media_headers, headers_set. lower_names.
    rewrite !lookup_insert_ne; [done | naive_solver ..]. }
  destruct (rejects param).
  - destruct Hcases as [-> ->]. simpl. by rewrite Hjson.
  - destruct Hcases as (Hh & [[data ->] | ->]); simpl; rewrite Hh.
    + by rewrite Hmedia.
    + by rewrite Hjson, Hmedia.
Qed.

Lemma media_keeps_upstream_headers_witness :
  ∃ r c',
    get_media sample_world (Some "missing.gif") upstream_ctx = (Return r, c')
    ∧ headers_get "X-Request-Id" (headers r)
      = headers_get "X-Request-Id" (res_headers upstream_ctx)
    ∧ headers_get "X-Request-Id" (res_headers c')
      = headers_get "X-Request-Id" (res_headers upstream_ctx).
Proof.
  apply (media_keeps_upstream_headers sample_world upstream_ctx
           (Some "missing.gif") "X-Request-Id").
  vm_compute. set_solver.
Defined.

(* ===================================================================== *)
(** ** Which names the guard lets through                                 *)
(* ===================================================================== *)

Section Stems.
Import JsString.

Lemma startsWith_empty (s : string) : startsWith s "" = true.
Proof. by destruct s. Qed.

Lemma length_toLowerCase (s : string) :
  String.length (toLowerCase s) = String.length s.
Proof. induction s as [|a s IH]; simpl; [done | by rewrite IH]. Qed.

Lemma endsWith_cons (a : Ascii.ascii) (s suf : string) :
  (String.length suf ≤ String.length s)%nat →
  endsWith (String a s) suf = endsWith s suf.
Proof.
  intros Hle. unfold endsWith. cbn [String.length].
  rewrite !decide_True by lia.
  replace (S (String.length s) - String.length suf)%nat
    with (S (String.length s - String.length suf)) by lia.
  done.
Qed.

Lemma includes_gif_slash (s : string) :
  includes (s +:+ ".gif") "/" = includes s "/".
Proof.
  induction s as [|a s IH]; [done |].
  rewrite append_String. cbn [includes startsWith].
  by rewrite !startsWith_empty, IH.
Qed.

Lemma includes_gif_dots (s : string) :
  includes (s +:+ ".gif") ".." = includes s ".." || endsWith s ".".
Proof.
  induction s as [|a s IH]; [done |].
  rewrite append_String. cbn [includes]. rewrite IH, orb_assoc.
  destruct s as [|b s].
  - cbn. case_decide as Ha; [subst a; reflexivity |].
    change (endsWith "" ".") with false. cbn [orb]. symmetry.
    unfold endsWith. cbn. case_decide as Hle; [| done].
    apply bool_decide_eq_false. by intros [= ?].
  - rewrite (endsWith_cons a (String b s)) by (cbn; lia). f_equal. f_equal.
    rewrite append_String. cbn [startsWith].
    by rewrite !startsWith_empty.
Qed.

End Stems.

(** X7. A name [<stem>.gif] passes the guard exactly when the stem holds no
    [/], no [..], and does not end in a dot (the dot of the extension
    would then complete a [..]). *)
Theorem stem_accepted_iff (stem : string) :
  rejects (Some (stem +:+ ".gif")) = false
  ↔ ¬ JsString.occurs_in "/" stem
    ∧ ¬ JsString.occurs_in ".." stem
    ∧ ¬ JsString.is_suffix_of "." stem.
Proof.
  unfold rejects, truthy. simpl default.
  rewrite includes_gif_dots, includes_gif_slash.
  assert (JsString.endsWith (stem +:+ ".gif") ".gif" = true) as ->.
  { apply endsWith_suffix. by exists stem. }
  rewrite bool_decide_false by (by destruct stem).
  rewrite <- !includes_occurs, <- endsWith_suffix.
  destruct (JsString.includes stem ".."), (JsString.includes stem "/"),
    (JsString.endsWith stem "."); simpl; naive_solver.
Qed.

(** X8. The extension is compared case-sensitively: a name ending in any
    other capitalisation of [.gif] is rejected. *)
Theorem extension_is_case_sensitive (stem ext : string) :
  JsString.toLowerCase ext = ".gif" →
  ext ≠ ".gif" →
  rejects (Some (stem +:+ ext)) = true.
Proof.
  intros Hlow Hne.
  assert (String.length ext = 4%nat) as Hlen.
  { by rewrite <- length_toLowerCase, Hlow. }
  assert (JsString.endsWith (stem +:+ ext) ".gif" = false) as Hend.
  { unfold JsString.endsWith. rewrite length_append, Hlen. cbn [String.length].
    rewrite decide_True by lia.
    replace (String.length stem + 4 - 4)%nat with (String.length stem) by lia.
    rewrite <- Hlen, substring_after_prefix. by apply bool_decide_eq_false. }
  unfold rejects. simpl default. rewrite Hend. apply orb_true_r.
Qed.

Lemma extension_is_case_sensitive_witness :
  rejects (Some ("0001" +:+ ".GIF")) = true.
Proof.
  apply (extension_is_case_sensitive "0001" ".GIF"); [reflexivity | discriminate].
Defined.

(** X9. Two accepted names are read from the same file, or fetched from
    the same URL, only when they are the same name (the working directory
    being [/<dirs>]). *)
Theorem distinct_names_distinct_targets (w : World) (dirs : list string)
    (filename1 filename2 : string) :
  cwd_is w dirs →
  rejects (Some filename1) = false →
  rejects (Some filename2) = false →
  (mediaPath w filename1 = mediaPath w filename2 → filename1 = filename2)
  ∧ (cdnUrl filename1 = cdnUrl filename2 → filename1 = filename2).
Proof.
  intros Hcwd Hacc1%accepted_name_is_segment Hacc2%accepted_name_is_segment.
  split.
  - rewrite (mediaPath_resolved w dirs filename1), (mediaPath_resolved w dirs filename2)
      by done.
    assert (∀ name, clean_segment name →
                    Forall (λ x, JsString.includes x "/" = false)
                      (dirs ++ ["media"; name])) as Hfree.
    { intros name Hname. apply clean_segments_slash_free, Forall_app.
      split; [apply Hcwd |].
      constructor; [apply media_is_clean | constructor; [done | constructor]]. }
    intros Heq%abs_path_inj; [| by auto | by auto | by destruct dirs ..].
    apply app_inv_head in Heq. by injection Heq.
  - unfold cdnUrl. apply append_cancel_l.
Qed.

Lemma distinct_names_distinct_targets_witness :
  (mediaPath root_world "0001.gif" = mediaPath root_world "0002.gif" →
   "0001.gif" = "0002.gif")
  ∧ (cdnUrl "0001.gif" = cdnUrl "0002.gif" → "0001.gif" = "0002.gif").
Proof.
  apply (distinct_names_distinct_targets root_world [] "0001.gif" "0002.gif");
    [split; [reflexivity | constructor] | reflexivity | reflexivity].
Defined.

(* ===================================================================== *)
(** ** Start-up and the error handler                                     *)
(* ===================================================================== *)

Section StartUp.
Import AppShell.

Lemma forEach_all_return (routes : list Route) (calls : list Call) :
  Forall (λ route, initRoutes route = None) routes →
  forEach routes mount_route calls
  = (Return tt, calls ++ concat (map route_calls routes)).
Proof.
  intros Hok. revert calls.
  induction Hok as [|route routes Hroute _ IH]; intros calls.
  - simpl. by rewrite app_nil_r.
  - cbn [forEach map concat].
    unfold mbind, init_mbind, init_bind at 1.
    unfold mount_route at 1, call_initRoutes, call, mbind, init_mbind,
      init_bind, mret, init_mret, init_ret.
    rewrite Hroute. cbn. fold (forEach routes mount_route).
    rewrite IH. unfold route_calls. by rewrite <- !app_assoc.
Qed.

Lemma forEach_first_throw (before after : list Route) (bad : Route)
    (cause : JsError) (calls : list Call) :
  Forall (λ route, initRoutes route = None) before →
  initRoutes bad = Some cause →
  forEach (before ++ bad :: after) mount_route calls
  = (Throw cause,
     calls ++ concat (map route_calls before) ++ [InitRoutes (route_name bad)]).
Proof.
  intros Hok Hbad. revert calls.
  induction Hok as [|route routes Hroute _ IH]; intros calls.
  - cbn [app forEach map concat].
    unfold mbind, init_mbind, init_bind at 1.
    unfold mount_route at 1, call_initRoutes, call, throw, mbind, init_mbind,
      init_bind.
    by rewrite Hbad.
  - cbn [app forEach map concat].
    unfold mbind, init_mbind, init_bind at 1.
    unfold mount_route at 1, call_initRoutes, call, mbind, init_mbind,
      init_bind, mret, init_mret, init_ret.
    rewrite Hroute. cbn. fold (forEach (routes ++ bad :: after) mount_route).
    rewrite IH. unfold route_calls. by rewrite <- !app_assoc.
Qed.

Lemma route_calls_shape (routes : list Route) (x : Call) :
  x ∈ concat (map route_calls routes) →
  ∃ name, x = InitRoutes name ∨ x = Mount "/api/v1" (RouteController name).
Proof.
  induction routes as [|route routes IH]; cbn [map concat].
  - by intros ?%elem_of_nil.
  - unfold route_calls at 1. set_unfold. naive_solver.
Qed.

Lemma initializeGlobalMiddleware_run (calls : list Call) :
  initializeGlobalMiddleware calls
  = (Return tt,
     calls ++ [Use (Cors "*" ["GET"; "OPTIONS"]); Use Logger; Use PrettyJSON;
               Use ResponseTime]).
Proof.
  unfold initializeGlobalMiddleware, call, mbind, init_mbind, init_bind.
  by rewrite <- !app_assoc.
Qed.

Lemma initializeRoutes_return (routes : list Route) (calls : list Call) :
  Forall (λ route, initRoutes route = None) routes →
  initializeRoutes routes calls
  = (Return tt,
     calls
     ++ [OnOptions "/api/v1/media/:filename" MediaOptions;
         OnGet "/api/v1/media/:filename" MediaGet]
     ++ concat (map route_calls routes)
     ++ [Mount "/" HomePage; OnGet "/health" Health]).
Proof.
  intros Hok.
  unfold initializeRoutes, initializeMediaProxy, initializeHealthRoute.
  unfold mbind, init_mbind, init_bind at 1 2 3. unfold call at 1 2.
  cbn -[forEach]. rewrite forEach_all_return by done.
  unfold call. by rewrite <- !app_assoc.
Qed.

Lemma initializeRoutes_throw (before after : list Route) (bad : Route)
    (cause : JsError) (calls : list Call) :
  Forall (λ route, initRoutes route = None) before →
  initRoutes bad = Some cause →
  initializeRoutes (before ++ bad :: after) calls
  = (Throw cause,
     calls
     ++ [OnOptions "/api/v1/media/:filename" MediaOptions;
         OnGet "/api/v1/media/:filename" MediaGet]
     ++ concat (map route_calls before)
     ++ [InitRoutes (route_name bad)]).
Proof.
  intros Hok Hbad.
  unfold initializeRoutes, initializeMediaProxy, initializeHealthRoute.
  unfold mbind, init_mbind, init_bind at 1 2 3. unfold call at 1 2.
  cbn -[forEach]. rewrite (forEach_first_throw _ _ _ cause) by done.
  by rewrite <- !app_assoc.
Qed.

Lemma initializeApp_return (routes : list Route) :
  Forall (λ route, initRoutes route = None) routes →
  initializeApp routes []
  = (Return tt, prologue ++ concat (map route_calls routes) ++ epilogue).
Proof.
  intros Hok. unfold initializeApp, init_try_catch.
  unfold mbind, init_mbind, init_bind.
  rewrite initializeGlobalMiddleware_run, initializeRoutes_return by done.
  unfold initializeSwaggerUI, initializeRouteFallback, initializeErrorHandler,
    call, mbind, init_mbind, init_bind.
  by rewrite <- !app_assoc.
Qed.

Lemma initializeApp_throw (before after : list Route) (bad : Route)
    (cause : JsError) :
  Forall (λ route, initRoutes route = None) before →
  initRoutes bad = Some cause →
  initializeApp (before ++ bad :: after) []
  = (Throw init_failure,
     prologue
     ++ concat (map route_calls before)
     ++ [InitRoutes (route_name bad);
         LogInitFailure "Failed to initialize application:" cause]).
Proof.
  intros Hok Hbad. unfold initializeApp, init_try_catch.
  unfold mbind, init_mbind, init_bind.
  rewrite initializeGlobalMiddleware_run.
  rewrite (initializeRoutes_throw _ _ _ cause) by done.
  unfold call, throw. by rewrite <- !app_assoc.
Qed.

End StartUp.

(** X10. When no [initRoutes()] throws, start-up returns, and the calls on the
    application are, in this order: the four global middlewares, the two
    media handlers, then for each route in turn its [initRoutes()] and
    its mount under [/api/v1], then the home page, the health route, the
    two documentation routes, the fallback and the error handler. So the
    media [GET] handler is registered before every controller is mounted,
    and every middleware before every handler. *)
Theorem initializeApp_registers_in_order (routes : list AppShell.Route) :
  Forall (λ route, AppShell.initRoutes route = None) routes →
  ∃ calls,
    AppShell.initializeApp routes [] = (Return tt, calls)
    ∧ calls = AppShell.prologue
              ++ concat (map AppShell.route_calls routes)
              ++ AppShell.epilogue
    ∧ (∀ i j name,
         calls !! i
         = Some (AppShell.OnGet "/api/v1/media/:filename" AppShell.MediaGet) →
         calls !! j
         = Some (AppShell.Mount "/api/v1" (AppShell.RouteController name)) →
         (i < j)%nat)
    ∧ (∀ i j m,
         calls !! i = Some (AppShell.Use m) →
         calls !! j = Some (AppShell.OnGet "/api/v1/media/:filename"
                              AppShell.MediaGet) →
         (i < j)%nat).
Proof.
  intros Hok. eexists. split; [by apply initializeApp_return |].
  split; [done |].
  assert (∀ k x, (AppShell.prologue
                  ++ concat (map AppShell.route_calls routes)
                  ++ AppShell.epilogue) !! k = Some x →
                 (k < 6)%nat ∧ AppShell.prologue !! k = Some x
                 ∨ (6 ≤ k)%nat
                   ∧ x ∈ concat (map AppShell.route_calls routes)
                           ++ AppShell.epilogue) as Hsplit.
  { intros k x Hk. apply lookup_app_Some in Hk as [Hk | [Hlen Hk]].
    - left. split; [| done]. by apply lookup_lt_Some in Hk.
    - right. split; [done |]. by eapply list_elem_of_lookup_2. }
  split.
  - intros i j name Hi Hj.
    apply Hsplit in Hi as [[Hi Hpi] | [_ Hi]], Hj as [[Hj Hpj] | [Hj _]].
    + do 6 (destruct j as [|j]; [discriminate Hpj |]). lia.
    + lia.
    + do 6 (destruct j as [|j]; [discriminate Hpj |]). lia.
    + apply elem_of_app in Hi as [Hi | Hi].
      * apply route_calls_shape in Hi as [n [? | ?]]; discriminate.
      * unfold AppShell.epilogue in Hi. set_unfold in Hi.
        by repeat destruct Hi as [Hi | Hi].
  - intros i j m Hi Hj.
    apply Hsplit in Hi as [[Hi Hpi] | [_ Hi]], Hj as [[Hj Hpj] | [_ Hj]].
    + do 6 (destruct j as [|j]; [try discriminate Hpj |]); [| lia].
      do 6 (destruct i as [|i]; [try discriminate Hpi; lia |]). lia.
    + apply elem_of_app in Hj as [Hj | Hj].
      * apply route_calls_shape in Hj as [n [? | ?]]; discriminate.
      * unfold AppShell.epilogue in Hj. set_unfold in Hj.
        by repeat destruct Hj as [Hj | Hj].
    + apply elem_of_app in Hi as [Hi | Hi].
      * apply route_calls_shape in Hi as [n [? | ?]]; discriminate.
      * unfold AppShell.epilogue in Hi. set_unfold in Hi.
        by repeat destruct Hi as [Hi | Hi].
    + apply elem_of_app in Hi as [Hi | Hi].
      * apply route_calls_shape in Hi as [n [? | ?]]; discriminate.
      * unfold AppShell.epilogue in Hi. set_unfold in Hi.
        by repeat destruct Hi as [Hi | Hi].
Qed.

Lemma initializeApp_registers_in_order_witness :
  ∃ calls,
    AppShell.initializeApp AppShell.server_routes [] = (Return tt, calls)
    ∧ calls = AppShell.prologue
              ++ concat (map AppShell.route_calls AppShell.server_routes)
              ++ AppShell.epilogue
    ∧ (∀ i j name,
         calls !! i
         = Some (AppShell.OnGet "/api/v1/media/:filename" AppShell.MediaGet) →
         calls !! j
         = Some (AppShell.Mount "/api/v1" (AppShell.RouteController name)) →
         (i < j)%nat)
    ∧ (∀ i j m,
         calls !! i = Some (AppShell.Use m) →
         calls !! j = Some (AppShell.OnGet "/api/v1/media/:filename"
                              AppShell.MediaGet) →
         (i < j)%nat).
Proof.
  apply (initializeApp_registers_in_order AppShell.server_routes).
  repeat constructor.
Defined.

(** X11. When an [initRoutes()] throws, start-up stops there: the routes before
    it are mounted, the failing one and those after it are not, and
    neither the home page, the health route, the documentation routes, the
    fallback nor the error handler is registered. The cause is written to
    the console, and what start-up throws is always the same error,
    [Failed to initialize application], whatever the cause was. *)
Theorem initializeApp_stops_at_first_throw
    (before after : list AppShell.Route) (bad : AppShell.Route) (cause : JsError) :
  Forall (λ route, AppShell.initRoutes route = None) before →
  AppShell.initRoutes bad = Some cause →
  ∃ calls,
    AppShell.initializeApp (before ++ bad :: after) []
    = (Throw {| err_code := None;
                err_message := "Failed to initialize application" |}, calls)
    ∧ calls = AppShell.prologue
              ++ concat (map AppShell.route_calls before)
              ++ [AppShell.InitRoutes (AppShell.route_name bad);
                  AppShell.LogInitFailure "Failed to initialize application:"
                    cause]
    ∧ AppShell.OnNotFound ∉ calls
    ∧ AppShell.OnError ∉ calls
    ∧ AppShell.Mount "/" AppShell.HomePage ∉ calls
    ∧ (∀ path h, AppShell.OnGet path h ∈ calls → h = AppShell.MediaGet)
    ∧ (∀ path, AppShell.Doc31 path ∉ calls).
Proof.
  intros Hok Hbad. eexists. split; [by apply initializeApp_throw |].
  split; [done |].
  assert (∀ x, x ∈ AppShell.prologue
                   ++ concat (map AppShell.route_calls before)
                   ++ [AppShell.InitRoutes (AppShell.route_name bad);
                       AppShell.LogInitFailure
                         "Failed to initialize application:" cause] →
               x ∈ AppShell.prologue
               ∨ (∃ name, x = AppShell.InitRoutes name
                          ∨ x = AppShell.Mount "/api/v1"
                                  (AppShell.RouteController name))
               ∨ x = AppShell.LogInitFailure
                       "Failed to initialize application:" cause) as Hin.
  { intros x Hx. apply elem_of_app in Hx as [Hx | Hx]; [by left |].
    right. apply elem_of_app in Hx as [Hx | Hx].
    - left. by apply route_calls_shape in Hx.
    - set_unfold in Hx. naive_solver. }
  unfold AppShell.prologue in Hin.
  repeat split.
  - intros Hx%Hin. set_unfold in Hx. naive_solver.
  - intros Hx%Hin. set_unfold in Hx. naive_solver.
  - intros Hx%Hin. set_unfold in Hx. naive_solver.
  - intros path h Hx%Hin. set_unfold in Hx. naive_solver.
  - intros path Hx%Hin. set_unfold in Hx. naive_solver.
Qed.

Lemma initializeApp_stops_at_first_throw_witness :
  ∃ calls,
    AppShell.initializeApp
      ([ {| AppShell.route_name := "ExerciseController";
            AppShell.initRoutes := None |} ]
       ++ AppShell.failing_route
       :: [ {| AppShell.route_name := "EquipmentController";
               AppShell.initRoutes := None |} ]) []
    = (Throw {| err_code := None;
                err_message := "Failed to initialize application" |}, calls)
    ∧ calls = AppShell.prologue
              ++ concat (map AppShell.route_calls
                           [ {| AppShell.route_name := "ExerciseController";
                                AppShell.initRoutes := None |} ])
              ++ [AppShell.InitRoutes (AppShell.route_name AppShell.failing_route);
                  AppShell.LogInitFailure "Failed to initialize application:"
                    AppShell.duplicate_route]
    ∧ AppShell.OnNotFound ∉ calls
    ∧ AppShell.OnError ∉ calls
    ∧ AppShell.Mount "/" AppShell.HomePage ∉ calls
    ∧ (∀ path h, AppShell.OnGet path h ∈ calls → h = AppShell.MediaGet)
    ∧ (∀ path, AppShell.Doc31 path ∉ calls).
Proof.
  apply (initializeApp_stops_at_first_throw
           [ {| AppShell.route_name := "ExerciseController";
                AppShell.initRoutes := None |} ]
           [ {| AppShell.route_name := "EquipmentController";
                AppShell.initRoutes := None |} ]
           AppShell.failing_route AppShell.duplicate_route);
    [repeat constructor | reflexivity].
Defined.

Lemma new_Response_json (obj : ApiMessage) (st : Z) (h : gmap string string) :
  let st16 := Z.modulo st 65536 in
  (200 ≤ st16 ≤ 599 ∧ st16 ≠ 204 ∧ st16 ≠ 205 ∧ st16 ≠ 304 →
   new_Response (BodyJson obj) st h
   = Return {| status := st16; body := BodyJson obj; headers := h |})
  ∧ (¬ (200 ≤ st16 ≤ 599 ∧ st16 ≠ 204 ∧ st16 ≠ 205 ∧ st16 ≠ 304) →
     ∃ e, new_Response (BodyJson obj) st h = Throw e).
Proof.
  intros st16. unfold new_Response. fold st16. cbn [has_body andb existsb
    null_body_statuses].
  destruct (Z.leb_spec 200 st16), (Z.leb_spec st16 599); cbn [andb negb];
    try (split; [lia | eauto]).
  destruct (Z.eqb_spec st16 101), (Z.eqb_spec st16 204),
    (Z.eqb_spec st16 205), (Z.eqb_spec st16 304); cbn [orb];
    (split; [first [lia | done] | first [by eauto | lia]]).
Qed.

(** X12. The error handler first prints the error and leaves the context
    as it is. For an error without status, or with status 0, it answers
    500 with [{success: false, message: <the error's message>}]. For any
    other status the response carries that status reduced to 16 bits when
    this is a status from 200 to 599 that allows a body; otherwise building
    the response throws, and so does the error handler (for 204 or 1000,
    say). *)
Theorem onError_answers_or_throws (err : AppShell.HttpError)
    (a : AppShell.ErrCtx) :
  ∃ res,
    AppShell.onError err a
    = (res,
       {| AppShell.ctx := AppShell.ctx a;
          AppShell.logged := AppShell.logged a ++ [err] |})
    ∧ (AppShell.he_status err = None ∨ AppShell.he_status err = Some 0 →
       ∃ r, res = Return r
            ∧ status r = 500
            ∧ body r = BodyJson {| success := false;
                                   message := AppShell.he_message err |}
            ∧ headers_get "Content-Type" (headers r) = Some json_content_type)
    ∧ (∀ s, AppShell.he_status err = Some s →
            s ≠ 0 →
            200 ≤ Z.modulo s 65536 ≤ 599 →
            Z.modulo s 65536 ≠ 204 →
            Z.modulo s 65536 ≠ 205 →
            Z.modulo s 65536 ≠ 304 →
            ∃ r, res = Return r
                 ∧ status r = Z.modulo s 65536
                 ∧ body r = BodyJson {| success := false;
                                        message := AppShell.he_message err |}
                 ∧ headers_get "Content-Type" (headers r)
                   = Some json_content_type)
    ∧ (∀ s, AppShell.he_status err = Some s →
            s ≠ 0 →
            (Z.modulo s 65536 < 200) ∨ (599 < Z.modulo s 65536)
            ∨ (Z.modulo s 65536 = 204) ∨ (Z.modulo s 65536 = 205)
            ∨ (Z.modulo s 65536 = 304) →
            ∃ e, res = Throw e).
Proof.
  unfold AppShell.onError, c_json.
  set (h := headers_set "Content-Type" json_content_type
              (res_headers (AppShell.ctx a))).
  eexists. split; [reflexivity |].
  pose proof (λ st, new_Response_json
                      {| success := false; message := AppShell.he_message err |}
                      st h) as Hresp.
  cbn zeta in Hresp.
  assert (headers_get "Content-Type" h = Some json_content_type) as Hct
    by apply json_content_type_wins.
  unfold AppShell.status_or_500. repeat split.
  - intros Hst. exists {| status := 500;
                          body := BodyJson {| success := false;
                                              message := AppShell.he_message err |};
                          headers := h |}.
    by destruct Hst as [-> | ->].
  - intros s -> Hs Hrange H204 H205 H304.
    rewrite bool_decide_false by done.
    destruct (Hresp s) as [Hok _]. rewrite Hok by tauto.
    eexists. split; [reflexivity |]. by repeat split.
  - intros s -> Hs Hbad. rewrite bool_decide_false by done.
    destruct (Hresp s) as [_ Hthrow].
    destruct Hthrow as [e ->]; [lia | by exists e].
Qed.
